(** * Lightweight PPM3 Viewer: the PPM decoder [LoadPPM] of [PPM Viewer 2/main.cpp]

    A shallow embedding of the decoder and the proofs of the properties its
    specification states.  A byte is an [ascii] (exactly 256 values), a
    [std::string], a [std::vector<char>] and the unread part of a stream are
    lists of bytes, a C++ [int] is a [Z] whose 32-bit range is written out
    where the code can leave it. *)

From Stdlib Require Import Ascii String ZArith Lia Bool Arith List.
From Equations Require Import Equations.
Import ListNotations.

Open Scope Z_scope.

(** ** Bytes *)

Definition bytes := list ascii.

(** [static_cast<unsigned char>(c)], also the value [peek()]/[get()] return. *)
Definition code (c : ascii) : Z := Z.of_N (N_of_ascii c).

(** A string literal of the source as bytes. *)
Definition lit (s : string) : bytes := list_ascii_of_string s.

Definition is_empty (s : bytes) : bool :=
  match s with [] => true | _ => false end.

(** [s[i]] as an unsigned char; 0 past the end (never read there: every use is
    guarded by a size test). *)
Definition at_ (s : bytes) (i : nat) : Z := code (nth i s zero).

Definition size (s : bytes) : Z := Z.of_nat (length s).

Fixpoint bytes_eqb (a b : bytes) : bool :=
  match a, b with
  | [], [] => true
  | x :: a', y :: b' => Ascii.eqb x y && bytes_eqb a' b'
  | _, _ => false
  end.

(** [isspace] in the "C" locale: space, \t, \n, \v, \f, \r. *)
Definition isspace (c : ascii) : bool :=
  ((9 <=? code c) && (code c <=? 13)) || (code c =? 32).

Definition LF : ascii := "010"%char.
Definition NUL : ascii := "000"%char.
Definition HASH : ascii := "#"%char.

(** ** The token normalizer (main.cpp 77-103) *)

(** One execution of the body of the [while] loop: the new value of [changed]
    and of [s].  [s.erase(0, n)] is [skipn n s]. *)
Definition normalizeBody (s : bytes) : bool * bytes :=
  if (3 <=? size s) && (at_ s 0 =? 0xEF) && (at_ s 1 =? 0xBB) && (at_ s 2 =? 0xBF)
  then (true, skipn 3 s)
  else if (2 <=? size s) && (at_ s 0 =? 0xC2) && (at_ s 1 =? 0xA0)
  then (true, skipn 2 s)
  else if at_ s 0 <=? 0x20
  then (true, skipn 1 s)
  else (false, s).

(** [while (changed && !s.empty()) { ... }], at most [fuel] executions of the
    body; the number of executions done and the final [s], or [None] while
    the loop is still running. *)
Fixpoint normalizeLoop (fuel : nat) (changed : bool) (s : bytes)
  : option (nat * bytes) :=
  if changed && negb (is_empty s) then
    match fuel with
    | O => None
    | S fuel' =>
        let '(changed', s') := normalizeBody s in
        match normalizeLoop fuel' changed' s' with
        | Some (k, r) => Some (S k, r)
        | None => None
        end
    end
  else Some (O, s).

(** The lambda [normalizeToken]: [changed] starts [true]; [length s]
    executions are enough ([normalizeLoop_terminates] below). *)
Definition normalizeToken (s : bytes) : bytes :=
  match normalizeLoop (length s) true s with
  | Some (_, r) => r
  | None => s
  end.

(** ** Streams

    The file stream and the string stream are modelled by their unread bytes.
    The state bits of a C++ stream add nothing here: [eofbit] and [failbit]
    are only ever set once the unread part is empty, where every read below
    fails in the same way on the position alone. *)

(** [std::getline(stream, line, delim)]: the line read and the unread part
    (the delimiter is consumed and not stored). *)
Fixpoint getline (delim : ascii) (s : bytes) : bytes * bytes :=
  match s with
  | [] => ([], [])
  | c :: t =>
      if Ascii.eqb c delim then ([], t)
      else let '(line, rest) := getline delim t in (c :: line, rest)
  end.

Lemma getline_rest_le delim s :
  (length (snd (getline delim s)) <= length s)%nat.
Proof.
  induction s as [|c t IH]; simpl; [lia|].
  destruct (Ascii.eqb c delim); simpl; [lia|].
  destruct (getline delim t); simpl in *; lia.
Qed.

(** *** The raw-stream tokenizer (main.cpp 227-248) *)

(** First loop of [nextToken]: skip whitespace and comment lines.  [None] is
    [return false] at end of file, [Some s] the [break] with [s] unread. *)
Equations? skipBlanks (file : bytes) : option bytes by wf (length file) lt :=
  skipBlanks [] := None;
  skipBlanks (c :: t) :=
    if isspace c then skipBlanks t
    else if Ascii.eqb c HASH then skipBlanks (snd (getline LF (c :: t)))
    else Some (c :: t).
Proof.
  simpl. destruct (Ascii.eqb c LF); simpl; [lia|].
  pose proof (getline_rest_le LF t). destruct (getline LF t); simpl in *; lia.
Qed.

(** Second loop of [nextToken]: bytes are pushed onto [out] until end of
    file, a whitespace byte or a ['#']. *)
Fixpoint readToken (file : bytes) : bytes * bytes :=
  match file with
  | [] => ([], [])
  | c :: t =>
      if isspace c || Ascii.eqb c HASH then ([], file)
      else let '(out, rest) := readToken t in (c :: out, rest)
  end.

(** [nextToken(out)]: [None] when it returns [false], else [out] and the
    unread part of the file. *)
Definition nextToken (file : bytes) : option (bytes * bytes) :=
  match skipBlanks file with
  | None => None
  | Some s =>
      let '(out, rest) := readToken s in
      if is_empty out then None else Some (out, rest)
  end.

(** *** The string-stream tokenizer (main.cpp 160-172) *)

(** The whitespace skipped by the sentry of [operator>>]. *)
Fixpoint skipws (s : bytes) : bytes :=
  match s with
  | [] => []
  | c :: t => if isspace c then skipws t else s
  end.

(** The bytes [operator>>] stores: up to the next whitespace or the end. *)
Fixpoint readWord (s : bytes) : bytes * bytes :=
  match s with
  | [] => ([], [])
  | c :: t =>
      if isspace c then ([], s)
      else let '(w, rest) := readWord t in (c :: w, rest)
  end.

(** [ss >> out]: [None] when the extraction fails (nothing but whitespace is
    left), else the word and the unread part. *)
Definition extract (ss : bytes) : option (bytes * bytes) :=
  match skipws ss with
  | [] => None
  | s => Some (readWord s)
  end.

Lemma readWord_length s :
  length s = (length (fst (readWord s)) + length (snd (readWord s)))%nat.
Proof.
  induction s as [|c t IH]; simpl; [reflexivity|].
  destruct (isspace c); simpl; [reflexivity|].
  destruct (readWord t); simpl in *; lia.
Qed.

Lemma skipws_le s : (length (skipws s) <= length s)%nat.
Proof.
  induction s as [|c t IH]; simpl; [lia|].
  destruct (isspace c); simpl; lia.
Qed.

Lemma skipws_head c t s : skipws s = c :: t -> isspace c = false.
Proof.
  induction s as [|d u IH]; simpl; [discriminate|].
  destruct (isspace d) eqn:E; [exact IH|]. intros H. now inversion H; subst.
Qed.

Lemma extract_shorter ss out ss' :
  extract ss = Some (out, ss') -> (length ss' < length ss)%nat.
Proof.
  unfold extract. pose proof (skipws_le ss) as Hle.
  destruct (skipws ss) as [|c t] eqn:E; [discriminate|].
  intros [= H']. apply skipws_head in E.
  pose proof (readWord_length (c :: t)) as Hl.
  cbn [readWord] in Hl, H'. rewrite E in Hl, H'.
  destruct (readWord t). inversion H'; subst. simpl in *. lia.
Qed.

Definition inspect {A} (x : A) : {y : A | x = y} := exist _ x eq_refl.

(** [nextTokenStr(out)]: comment words (first byte ['#']) are dropped with the
    rest of their line; any other word is normalized and returned. *)
Equations? nextTokenStr (ss : bytes) : option (bytes * bytes)
  by wf (length ss) lt :=
  nextTokenStr ss with inspect (extract ss) := {
    | exist _ None _ => None
    | exist _ (Some (out, ss')) Hx =>
        if negb (is_empty out) && (at_ out 0 =? code HASH)
        then nextTokenStr (snd (getline LF ss'))
        else Some (normalizeToken out, ss') }.
Proof.
  apply extract_shorter in Hx. pose proof (getline_rest_le LF ss'). lia.
Qed.

(** The tokens of up to [n] successive calls of a tokenizer, ending at the
    first call that reports the end of the tokens. *)
Fixpoint takeTokens (next : bytes -> option (bytes * bytes)) (n : nat)
  (s : bytes) : list bytes :=
  match n with
  | O => []
  | S n' =>
      match next s with
      | None => []
      | Some (tok, s') => tok :: takeTokens next n' s'
      end
  end.

(** ** Integers *)

Definition INT_MIN : Z := - 2 ^ 31.
Definition INT_MAX : Z := 2 ^ 31 - 1.

(** A value brought back into the range of a 32-bit [int].  Signed overflow
    is undefined in C++; it is modelled as the two's complement wrap-around
    of the target's multiplication. *)
Definition wrap_int (z : Z) : Z := (z + 2 ^ 31) mod 2 ^ 32 - 2 ^ 31.

(** [static_cast<uint8_t>(v)], [static_cast<uint64_t>(v)]. *)
Definition to_uint8 (v : Z) : Z := v mod 2 ^ 8.
Definition to_uint64 (v : Z) : Z := v mod 2 ^ 64.

(** The exceptions [std::stoi] throws. *)
Inductive exception := invalid_argument | out_of_range.

Definition isdigit (c : ascii) : bool := (48 <=? code c) && (code c <=? 57).

(** The value of the longest run of decimal digits at the front of [s],
    continuing from [acc]. *)
Fixpoint digits (acc : Z) (s : bytes) : Z :=
  match s with
  | [] => acc
  | c :: t => if isdigit c then digits (10 * acc + (code c - 48)) t else acc
  end.

(** [std::stoi(s)] in base 10, as [strtol] converts: leading whitespace, an
    optional sign, then the longest run of digits; whatever follows is
    ignored.  No digit: [invalid_argument]; a value outside [int]:
    [out_of_range]. *)
Definition stoi (s : bytes) : Z + exception :=
  let s1 := skipws s in
  let '(neg, s2) :=
    match s1 with
    | c :: t => if Ascii.eqb c "-" then (true, t)
                else if Ascii.eqb c "+" then (false, t)
                else (false, s1)
    | [] => (false, s1)
    end in
  match s2 with
  | c :: _ =>
      if isdigit c then
        let v := if neg then - digits 0 s2 else digits 0 s2 in
        if (INT_MIN <=? v) && (v <=? INT_MAX) then inl v else inr out_of_range
      else inr invalid_argument
  | [] => inr invalid_argument
  end.

(** ** Images *)

(** The four bytes of one [uint32_t] of the pixel buffer in memory order,
    as [struct Pixel] names them: the decoder writes them one by one through
    a [uint8_t*]. *)
Module Pixel.
Record t := mk { b : Z; g : Z; r : Z; a : Z }.
End Pixel.

Record Image := mkImage { width : Z; height : Z; pixels : list Pixel.t }.

(** [Image img;] *)
Definition newImage : Image := mkImage 0 0 [].

(** [img.pixels.resize(n)] on the empty vector: [n] zero values. *)
Definition resize (n : Z) : list Pixel.t :=
  repeat (Pixel.mk 0 0 0 0) (Z.to_nat n).

(** [img.pixels[i] = px].  The index is always inside the vector. *)
Fixpoint store (i : nat) (px : Pixel.t) (v : list Pixel.t) : list Pixel.t :=
  match v, i with
  | [], _ => []
  | _ :: v', O => px :: v'
  | x :: v', S i' => x :: store i' px v'
  end.

(** [if (maxVal != 255 && maxVal > 0) v = (v * 255) / maxVal;] *)
Definition rescale (maxVal v : Z) : Z :=
  if negb (maxVal =? 255) && (0 <? maxVal)
  then Z.quot (wrap_int (v * 255)) maxVal
  else v.

(** [std::min<int>(255, std::max<int>(0, v))] *)
Definition clamp (v : Z) : Z := Z.min 255 (Z.max 0 v).

(** The four stores through [ptr]. *)
Definition writePixel (r g b : Z) : Pixel.t :=
  Pixel.mk (to_uint8 b) (to_uint8 g) (to_uint8 r) 0.

(** ** Outcomes of a load *)

(** The messages written to [std::cerr]. *)
Inductive Diag :=
| CouldNotOpenFile
| EmptyOrInvalidFile
| NotP3
| MissingWidth
| MissingHeight
| MissingMaxVal
| InvalidWidthHeightTokens
| InvalidMaxValToken
| InvalidDimensions
| TooLargeOrInvalid
| UnexpectedEndOfPixels
| MalformedP6Header
| InvalidP6WidthHeight
| InvalidP6MaxVal
| UnexpectedEOFBeforePixelData
| UnexpectedEndOfBinaryPixels
| NotP3P6
| InvalidPixelToken.

(** [LoadPPM] either returns an image, after an error message or after the
    "Loaded" message ([None]), or an exception leaves it. *)
Inductive Outcome :=
| Return (err : option Diag) (img : Image)
| Throw (e : exception).

Definition failed (o : Outcome) : Prop :=
  match o with
  | Return None _ => False
  | _ => True
  end.

(** [img.pixels[i]] written, the rest of [img] kept. *)
Definition setPixel (img : Image) (i : nat) (px : Pixel.t) : Image :=
  mkImage (width img) (height img) (store i px (pixels img)).

(** ** The string parser (main.cpp 158-223) *)

(** The pixel loop, lines 199-219: [n] pixels to go, the next at index [i].
    The three [std::stoi] calls are outside any [try]. *)
Fixpoint pixelsStr (maxVal : Z) (n i : nat) (ss : bytes) (img : Image)
  : Outcome :=
  match n with
  | O => Return None img
  | S n' =>
      match nextTokenStr ss with
      | None => Return (Some UnexpectedEndOfPixels) (mkImage 0 0 [])
      | Some (sr, ss1) =>
      match nextTokenStr ss1 with
      | None => Return (Some UnexpectedEndOfPixels) (mkImage 0 0 [])
      | Some (sg, ss2) =>
      match nextTokenStr ss2 with
      | None => Return (Some UnexpectedEndOfPixels) (mkImage 0 0 [])
      | Some (sb, ss3) =>
          let sr := normalizeToken sr in
          let sg := normalizeToken sg in
          let sb := normalizeToken sb in
          match stoi sr with
          | inr e => Throw e
          | inl r =>
          match stoi sg with
          | inr e => Throw e
          | inl g =>
          match stoi sb with
          | inr e => Throw e
          | inl b =>
              let r := clamp (rescale maxVal r) in
              let g := clamp (rescale maxVal g) in
              let b := clamp (rescale maxVal b) in
              pixelsStr maxVal n' (S i) ss3 (setPixel img i (writePixel r g b))
          end end end
      end end end
  end.

Definition parseString (ss : bytes) (img : Image) : Outcome :=
  match nextTokenStr ss with
  | None => Return (Some EmptyOrInvalidFile) img
  | Some (token, ss) =>
  let token := normalizeToken token in
  if negb (bytes_eqb token (lit "P3")) then Return (Some NotP3) img else
  match nextTokenStr ss with
  | None => Return (Some MissingWidth) img
  | Some (wtoken, ss) =>
  match nextTokenStr ss with
  | None => Return (Some MissingHeight) img
  | Some (htoken, ss) =>
  match nextTokenStr ss with
  | None => Return (Some MissingMaxVal) img
  | Some (mtoken, ss) =>
  let wtoken := normalizeToken wtoken in
  let htoken := normalizeToken htoken in
  let mtoken := normalizeToken mtoken in
  match stoi wtoken with
  | inr _ => Return (Some InvalidWidthHeightTokens) img
  | inl w =>
  let img := mkImage w (height img) (pixels img) in
  match stoi htoken with
  | inr _ => Return (Some InvalidWidthHeightTokens) img
  | inl h =>
  let img := mkImage (width img) h (pixels img) in
  match stoi mtoken with
  | inr _ => Return (Some InvalidMaxValToken) img
  | inl maxVal =>
  if (width img <=? 0) || (height img <=? 0)
  then Return (Some InvalidDimensions) img else
  let pixelCount := (to_uint64 (width img) * to_uint64 (height img)) mod 2 ^ 64 in
  if (pixelCount =? 0) || (100000000 <? pixelCount)
  then Return (Some TooLargeOrInvalid) img else
  let img := mkImage (width img) (height img) (resize pixelCount) in
  pixelsStr maxVal (Z.to_nat pixelCount) 0 ss img
  end end end end end end end.

(** ** The file-stream parser (main.cpp 225-402) *)

(** The binary pixel loop, lines 292-309: no clamp before the stores. *)
Fixpoint pixelsP6 (maxVal : Z) (n i : nat) (file : bytes) (img : Image)
  : Outcome :=
  match n with
  | O => Return None img
  | S n' =>
      match file with
      | c0 :: c1 :: c2 :: file' =>
          let r := rescale maxVal (code c0) in
          let g := rescale maxVal (code c1) in
          let b := rescale maxVal (code c2) in
          pixelsP6 maxVal n' (S i) file' (setPixel img i (writePixel r g b))
      | _ => Return (Some UnexpectedEndOfBinaryPixels) (mkImage 0 0 [])
      end
  end.

(** Lines 265-313, entered with [token == "P6"]. *)
Definition parseP6 (file : bytes) (img : Image) : Outcome :=
  match nextToken file with
  | None => Return (Some MalformedP6Header) img
  | Some (wstr, file) =>
  match nextToken file with
  | None => Return (Some MalformedP6Header) img
  | Some (hstr, file) =>
  match nextToken file with
  | None => Return (Some MalformedP6Header) img
  | Some (mstr, file) =>
  let wstr := normalizeToken wstr in
  let hstr := normalizeToken hstr in
  let mstr := normalizeToken mstr in
  match stoi wstr with
  | inr _ => Return (Some InvalidP6WidthHeight) img
  | inl w =>
  let img := mkImage w (height img) (pixels img) in
  match stoi hstr with
  | inr _ => Return (Some InvalidP6WidthHeight) img
  | inl h =>
  let img := mkImage (width img) h (pixels img) in
  match stoi mstr with
  | inr _ => Return (Some InvalidP6MaxVal) img
  | inl maxVal =>
  if (width img <=? 0) || (height img <=? 0)
  then Return (Some InvalidDimensions) img else
  let pixelCount := (to_uint64 (width img) * to_uint64 (height img)) mod 2 ^ 64 in
  if (pixelCount =? 0) || (100000000 <? pixelCount)
  then Return (Some TooLargeOrInvalid) img else
  match file with
  | [] => Return (Some UnexpectedEOFBeforePixelData) img
  | sep :: file =>
  let img := mkImage (width img) (height img) (resize pixelCount) in
  pixelsP6 maxVal (Z.to_nat pixelCount) 0 file img
  end end end end end end end.

(** The ASCII pixel loop, lines 363-399: the tokens are not normalized, the
    three [std::stoi] calls are inside a [try]. *)
Fixpoint pixelsP3 (maxVal2 : Z) (n i : nat) (file : bytes) (img : Image)
  : Outcome :=
  match n with
  | O => Return None img
  | S n' =>
      match nextToken file with
      | None => Return (Some UnexpectedEndOfPixels) (mkImage 0 0 [])
      | Some (sr, file1) =>
      match nextToken file1 with
      | None => Return (Some UnexpectedEndOfPixels) (mkImage 0 0 [])
      | Some (sg, file2) =>
      match nextToken file2 with
      | None => Return (Some UnexpectedEndOfPixels) (mkImage 0 0 [])
      | Some (sb, file3) =>
          match stoi sr with
          | inr _ => Return (Some InvalidPixelToken) (mkImage 0 0 [])
          | inl r =>
          match stoi sg with
          | inr _ => Return (Some InvalidPixelToken) (mkImage 0 0 [])
          | inl g =>
          match stoi sb with
          | inr _ => Return (Some InvalidPixelToken) (mkImage 0 0 [])
          | inl b =>
              let r := clamp (rescale maxVal2 r) in
              let g := clamp (rescale maxVal2 g) in
              let b := clamp (rescale maxVal2 b) in
              pixelsP3 maxVal2 n' (S i) file3 (setPixel img i (writePixel r g b))
          end end end
      end end end
  end.

(** Lines 320-402, entered with [token == "P3"]. *)
Definition parseP3 (file : bytes) (img : Image) : Outcome :=
  match nextToken file with
  | None => Return (Some MissingWidth) img
  | Some (wtoken, file) =>
  match nextToken file with
  | None => Return (Some MissingHeight) img
  | Some (htoken, file) =>
  match nextToken file with
  | None => Return (Some MissingMaxVal) img
  | Some (mtoken, file) =>
  let wtoken := normalizeToken wtoken in
  let htoken := normalizeToken htoken in
  let mtoken := normalizeToken mtoken in
  match stoi wtoken with
  | inr _ => Return (Some InvalidWidthHeightTokens) img
  | inl w =>
  let img := mkImage w (height img) (pixels img) in
  match stoi htoken with
  | inr _ => Return (Some InvalidWidthHeightTokens) img
  | inl h =>
  let img := mkImage (width img) h (pixels img) in
  match stoi mtoken with
  | inr _ => Return (Some InvalidMaxValToken) img
  | inl maxVal2 =>
  if (width img <=? 0) || (height img <=? 0)
  then Return (Some InvalidDimensions) (mkImage 0 0 (pixels img)) else
  let pixelCount2 := (to_uint64 (width img) * to_uint64 (height img)) mod 2 ^ 64 in
  if (pixelCount2 =? 0) || (100000000 <? pixelCount2)
  then Return (Some TooLargeOrInvalid) (mkImage 0 0 (pixels img)) else
  let img := mkImage (width img) (height img) (resize pixelCount2) in
  pixelsP3 maxVal2 (Z.to_nat pixelCount2) 0 file img
  end end end end end end.

(** Lines 250-318: the first token and the dispatch on the magic. *)
Definition parseFile (file : bytes) (img : Image) : Outcome :=
  match nextToken file with
  | None => Return (Some EmptyOrInvalidFile) img
  | Some (token, file) =>
  let token := normalizeToken token in
  let token :=
    if (3 <=? size token) && (at_ token 0 =? 0xEF) && (at_ token 1 =? 0xBB)
       && (at_ token 2 =? 0xBF)
    then skipn 3 token else token in
  if bytes_eqb token (lit "P6") then parseP6 file img
  else if negb (bytes_eqb token (lit "P3")) then Return (Some NotP3P6) img
  else parseP3 file img
  end.

(** ** Encoding detection (main.cpp 66-156) *)

(** The code units of the loops at lines 111-114 and 132-135, on the bytes
    from index 2 on: one unit per pair, an odd last byte left out. *)
Fixpoint unitsLE (raw : bytes) : list Z :=
  match raw with
  | c0 :: c1 :: raw' => Z.lor (code c0) (Z.shiftl (code c1) 8) :: unitsLE raw'
  | _ => []
  end.

Fixpoint unitsBE (raw : bytes) : list Z :=
  match raw with
  | c0 :: c1 :: raw' => Z.lor (Z.shiftl (code c0) 8) (code c1) :: unitsBE raw'
  | _ => []
  end.

Section Decoder.

(** [WideCharToMultiByte(CP_UTF8, 0, w, size, ...)] of the Windows API: the
    UTF-8 bytes of the code units [w]; their number is [needed], and no
    byte stands for a call that returns 0. *)
Variable WideCharToMultiByte : list Z -> bytes.

(** [Some text]: [useStringParser] is set and [ss] holds [text]. *)
Definition detect (file : bytes) : option bytes :=
  if (at_ file 0 =? 0xFF) && (at_ file 1 =? 0xFE) then
    let w := unitsLE (skipn 2 file) in
    match w with
    | [] => None
    | _ => let utf8 := WideCharToMultiByte w in
           if 0 <? size utf8 then Some utf8 else None
    end
  else if (at_ file 0 =? 0xFE) && (at_ file 1 =? 0xFF) then
    let w := unitsBE (skipn 2 file) in
    match w with
    | [] => None
    | _ => let utf8 := WideCharToMultiByte w in
           if 0 <? size utf8 then Some utf8 else None
    end
  else if (at_ file 0 =? 0xEF) && (at_ file 1 =? 0xBB) && (at_ file 2 =? 0xBF) then
    let rest := fst (getline NUL file) in
    let rest := if 3 <=? size rest then skipn 3 rest else rest in
    Some rest
  else None.

(** [LoadPPM(filepath)] on the contents of the file at [filepath], [None]
    when the file cannot be opened. *)
Definition LoadPPM (contents : option bytes) : Outcome :=
  let img := newImage in
  match contents with
  | None => Return (Some CouldNotOpenFile) img
  | Some file =>
      match detect file with
      | Some text => parseString text img
      | None => parseFile file img
      end
  end.

End Decoder.

(** ** A converter for the examples

    [WideCharToMultiByte] belongs to the operating system, not to this
    program; the theorems below hold for every converter.  The examples that
    need one use the UTF-8 encoding of UTF-16 as the Unicode standard defines
    it, an unpaired surrogate becoming U+FFFD. *)

Definition byte_of (z : Z) : ascii := ascii_of_N (Z.to_N (z mod 256)).

Definition utf8_of_codepoint (u : Z) : bytes :=
  if u <? 0x80 then [byte_of u]
  else if u <? 0x800 then
    [byte_of (0xC0 + u / 64); byte_of (0x80 + u mod 64)]
  else if u <? 0x10000 then
    [byte_of (0xE0 + u / 4096); byte_of (0x80 + (u / 64) mod 64);
     byte_of (0x80 + u mod 64)]
  else
    [byte_of (0xF0 + u / 262144); byte_of (0x80 + (u / 4096) mod 64);
     byte_of (0x80 + (u / 64) mod 64); byte_of (0x80 + u mod 64)].

Fixpoint utf8_of_utf16 (w : list Z) : bytes :=
  match w with
  | [] => []
  | u :: w' =>
      if (0xD800 <=? u) && (u <=? 0xDBFF) then
        match w' with
        | v :: w'' =>
            if (0xDC00 <=? v) && (v <=? 0xDFFF)
            then utf8_of_codepoint
                   (0x10000 + (u - 0xD800) * 1024 + (v - 0xDC00))
                 ++ utf8_of_utf16 w''
            else utf8_of_codepoint 0xFFFD ++ utf8_of_utf16 w'
        | [] => utf8_of_codepoint 0xFFFD
        end
      else if (0xDC00 <=? u) && (u <=? 0xDFFF)
      then utf8_of_codepoint 0xFFFD ++ utf8_of_utf16 w'
      else utf8_of_codepoint u ++ utf8_of_utf16 w'
  end.

(** The bytes of a text saved as UTF-16 little endian / big endian, without
    the byte order mark (ASCII text only: the high byte is 0). *)
Definition utf16le_of_ascii (s : bytes) : bytes :=
  flat_map (fun c => [c; NUL]) s.
Definition utf16be_of_ascii (s : bytes) : bytes :=
  flat_map (fun c => [NUL; c]) s.

Definition BOM_UTF8 : bytes := [byte_of 0xEF; byte_of 0xBB; byte_of 0xBF].
Definition BOM_UTF16LE : bytes := [byte_of 0xFF; byte_of 0xFE].
Definition BOM_UTF16BE : bytes := [byte_of 0xFE; byte_of 0xFF].

(** ** The placeholder image of [main] (main.cpp 484-503) *)

(** [v.resize(n)]: the first [n] values kept, zero values added up to [n]. *)
Definition vresize (n : nat) (v : list Pixel.t) : list Pixel.t :=
  firstn n v ++ repeat (Pixel.mk 0 0 0 0) (n - length v).

(** The inner loop, lines 490-501, in [int] arithmetic: [n] columns to go,
    the next one column [x] of row [y]. *)
Fixpoint gradientColumns (width height y : Z) (n : nat) (x : Z)
  (v : list Pixel.t) : list Pixel.t :=
  match n with
  | O => v
  | S n' =>
      let r := Z.quot (wrap_int (x * 255)) width in
      let g := Z.quot (wrap_int (y * 255)) height in
      let b := 128 in
      let index := wrap_int (wrap_int (y * width) + x) in
      gradientColumns width height y n' (x + 1)
        (store (Z.to_nat index) (writePixel r g b) v)
  end.

(** The outer loop, lines 489-502: [n] rows to go, the next one row [y]. *)
Fixpoint gradientRows (width height : Z) (n : nat) (y : Z)
  (v : list Pixel.t) : list Pixel.t :=
  match n with
  | O => v
  | S n' =>
      gradientRows width height n' (y + 1)
        (gradientColumns width height y (Z.to_nat width) 0 v)
  end.

(** The body of the [if] at lines 485-503: [g_image] becomes the 800 x 600
    gradient. *)
Definition dummyGradient (g_image : Image) : Image :=
  let width := 800 in
  let height := 600 in
  let v := vresize (Z.to_nat (wrap_int (width * height))) (pixels g_image) in
  mkImage width height (gradientRows width height (Z.to_nat height) 0 v).

(** ** The display shell around the decoder (main.cpp 405-503)

    Only what happens to [g_image] is modelled; the calls to the windowing
    system are named, not modelled. *)

(** Lines 484-485: the gradient replaces an image without positive
    dimensions. *)
Definition orGradient (g_image : Image) : Image :=
  if (width g_image <=? 0) || (height g_image <=? 0)
  then dummyGradient g_image else g_image.

(** [main], lines 478-503: [g_image] when the window is created.  [argv1] is
    [None] without a command-line argument, else the contents of the file it
    names ([None] inside: the file cannot be opened).  The result is [None]
    when an exception leaves [LoadPPM]: nothing catches it. *)
Definition mainImage (conv : list Z -> bytes) (argv1 : option (option bytes))
  : option Image :=
  match argv1 with
  | None => Some (orGradient newImage)
  | Some contents =>
      match LoadPPM conv contents with
      | Return _ img => Some (orGradient img)
      | Throw _ => None
      end
  end.

(** What the File/Open handler does besides the assignment to [g_image]. *)
Inductive Shown :=
| ClientResized (w h : Z)
| LoadErrorBox
| Untouched.

(** [WM_COMMAND] with [ID_FILE_OPEN], lines 413-442.  [chosen] is [None] when
    the file dialog is cancelled, else the contents of the chosen file. *)
Definition onFileOpen (conv : list Z -> bytes) (g_image : Image)
  (chosen : option (option bytes)) : option (Image * Shown) :=
  match chosen with
  | None => Some (g_image, Untouched)
  | Some contents =>
      match LoadPPM conv contents with
      | Return _ img =>
          if (0 <? width img) && (0 <? height img)
          then Some (img, ClientResized (width img) (height img))
          else Some (g_image, LoadErrorBox)
      | Throw _ => None
      end
  end.

(** [v.empty()] *)
Definition vempty (v : list Pixel.t) : bool :=
  match v with [] => true | _ => false end.

(** [WM_PAINT], lines 444-472: the width, height and buffer handed to
    [StretchDIBits], [None] when nothing is drawn. *)
Definition onPaint (g_image : Image) : option (Z * Z * list Pixel.t) :=
  if (0 <? width g_image) && negb (vempty (pixels g_image))
  then Some (width g_image, height g_image, pixels g_image)
  else None.

(** [g_image] after a sequence of File/Open commands. *)
Fixpoint afterOpens (conv : list Z -> bytes) (g_image : Image)
  (commands : list (option (option bytes))) : option Image :=
  match commands with
  | [] => Some g_image
  | chosen :: commands' =>
      match onFileOpen conv g_image chosen with
      | Some (g_image', _) => afterOpens conv g_image' commands'
      | None => None
      end
  end.

(** * Notions used to state the properties *)

(** ** Outcomes *)

(** The error message of an outcome, if it has one. *)
Definition diagOf (o : Outcome) : option Diag :=
  match o with
  | Return d _ => d
  | Throw _ => None
  end.

(** ** Tokens *)

(** The bytes the normalizer can strip: control bytes and space, and the
    bytes of the byte order mark and of the non-breaking space.  Neither
    ['#'] nor a digit is one of them. *)
Definition strippable (c : ascii) : Prop :=
  code c <= 0x20 \/ 0x80 <= code c.

(** No ['#'] among the bytes of a token. *)
Definition hash_free (t : bytes) : bool :=
  negb (existsb (fun c => Ascii.eqb c HASH) t).

Definition no_space (w : bytes) : bool :=
  forallb (fun c => negb (isspace c)) w.

(** The unread part begins with whitespace, or nothing is left. *)
Definition at_space_or_end (s : bytes) : bool :=
  match s with
  | [] => true
  | c :: _ => isspace c
  end.

Definition starts_with_digit (s : bytes) : bool :=
  match s with
  | c :: _ => isdigit c
  | [] => false
  end.

(** The unread bytes after [k] tokens. *)
Fixpoint dropTokens (next : bytes -> option (bytes * bytes)) (k : nat)
  (s : bytes) : option bytes :=
  match k with
  | O => Some s
  | S k' =>
      match next s with
      | None => None
      | Some (_, s') => dropTokens next k' s'
      end
  end.

(** ** Channels of a document *)

(** The [j]-th channel value of an ASCII pixel body [s], as it is stored:
    the [j]-th token, prepared by [prep], converted, rescaled and clamped. *)
Definition sampleText (next : bytes -> option (bytes * bytes))
  (prep : bytes -> bytes) (maxVal : Z) (s : bytes) (j : nat) : option Z :=
  match nth_error (takeTokens next (S j) s) j with
  | Some tok =>
      match stoi (prep tok) with
      | inl v => Some (clamp (rescale maxVal v))
      | inr _ => None
      end
  | None => None
  end.

(** The [j]-th channel value of a binary pixel body [s], as it is stored. *)
Definition sampleBinary (maxVal : Z) (s : bytes) (j : nat) : option Z :=
  match nth_error s j with
  | Some c => Some (to_uint8 (rescale maxVal (code c)))
  | None => None
  end.

(** The [j]-th channel value of the document [file], in the order of the
    file (red, green, blue of the first pixel, then of the second, ...): the
    header is the first four tokens, the fourth is maxValue, and the body
    follows (after one separator byte when the magic is ["P6"]). *)
Definition channel (conv : list Z -> bytes) (file : bytes) (j : nat)
  : option Z :=
  match detect conv file with
  | Some text =>
      match takeTokens nextTokenStr 4 text, dropTokens nextTokenStr 4 text with
      | [_; _; _; m], Some body =>
          match stoi (normalizeToken m) with
          | inl maxVal => sampleText nextTokenStr normalizeToken maxVal body j
          | inr _ => None
          end
      | _, _ => None
      end
  | None =>
      match takeTokens nextToken 4 file, dropTokens nextToken 4 file with
      | [magic; _; _; m], Some body =>
          match stoi (normalizeToken m) with
          | inl maxVal =>
              if bytes_eqb (normalizeToken magic) (lit "P6")
              then sampleBinary maxVal (skipn 1 body) j
              else sampleText nextToken (fun tok => tok) maxVal body j
          | inr _ => None
          end
      | _, _ => None
      end
  end.

(** What a pixel loop has done when it ends without an error: the image
    keeps its size, the pixels before index [i] are untouched, and pixel
    [i + k] holds the channels [3k], [3k+1], [3k+2] of the body as its bytes
    2, 1, 0, with byte 3 zero. *)
Definition loop_done (sample : nat -> option Z) (n i : nat)
  (img img' : Image) : Prop :=
  width img' = width img /\ height img' = height img /\
  length (pixels img') = length (pixels img) /\
  (forall j, (j < i)%nat ->
     nth_error (pixels img') j = nth_error (pixels img) j) /\
  (forall k, (k < n)%nat ->
     exists R G B,
       sample (3 * k)%nat = Some R /\
       sample (3 * k + 1)%nat = Some G /\
       sample (3 * k + 2)%nat = Some B /\
       nth_error (pixels img') (i + k) = Some (Pixel.mk B G R 0)).

(** A loaded image: positive dimensions, as many pixels as they say, and
    pixel [k] made of the channels [3k+2], [3k+1], [3k] and a zero byte. *)
Definition image_done (sample : nat -> option Z) (img : Image) : Prop :=
  0 < width img /\ 0 < height img /\
  length (pixels img) = Z.to_nat (width img * height img) /\
  forall k px,
    nth_error (pixels img) k = Some px ->
    exists R G B,
      sample (3 * k)%nat = Some R /\
      sample (3 * k + 1)%nat = Some G /\
      sample (3 * k + 2)%nat = Some B /\
      px = Pixel.mk B G R 0.

(** ** The placeholder and the shell *)

(** The pixel of the gradient at column [x] of row [y]. *)
Definition gradientPixel (width height x y : Z) : Pixel.t :=
  Pixel.mk 128 (y * 255 / height) (x * 255 / width) 0.

(** What [StretchDIBits] needs of [g_image]: positive dimensions, and a
    buffer that is empty (nothing is drawn) or holds [width * height]
    pixels. *)
Definition paintable (g : Image) : Prop :=
  0 < width g /\ 0 < height g /\
  (pixels g = [] \/ length (pixels g) = Z.to_nat (width g * height g)).

(** The error messages that can come with dimensions left in the image:
    those of the returns after width or height was stored and before the
    pixel loop. *)
Definition keeps_dimensions (d : Diag) : bool :=
  match d with
  | InvalidWidthHeightTokens | InvalidP6WidthHeight
  | InvalidMaxValToken | InvalidP6MaxVal
  | InvalidDimensions | TooLargeOrInvalid
  | UnexpectedEOFBeforePixelData => true
  | _ => false
  end.

(** A byte. *)
Definition is_byte (v : Z) : Prop := 0 <= v <= 255.

(** The unread part begins with whitespace or a ['#'], or nothing is left. *)
Definition at_token_end (s : bytes) : bool :=
  match s with
  | [] => true
  | c :: _ => isspace c || Ascii.eqb c HASH
  end.

(** The width, height and maxValue a document declares: the second, third
    and fourth token, normalized and converted, after a magic its path
    accepts. *)
Definition declaredHeader (conv : list Z -> bytes) (file : bytes)
  : option (Z * Z * Z) :=
  let fields (t1 t2 t3 : bytes) :=
    match stoi (normalizeToken t1), stoi (normalizeToken t2),
          stoi (normalizeToken t3) with
    | inl w, inl h, inl maxVal => Some (w, h, maxVal)
    | _, _, _ => None
    end in
  match detect conv file with
  | Some text =>
      match takeTokens nextTokenStr 4 text with
      | [t0; t1; t2; t3] =>
          if bytes_eqb (normalizeToken t0) (lit "P3")
          then fields t1 t2 t3 else None
      | _ => None
      end
  | None =>
      match takeTokens nextToken 4 file with
      | [t0; t1; t2; t3] =>
          if bytes_eqb (normalizeToken t0) (lit "P3")
             || bytes_eqb (normalizeToken t0) (lit "P6")
          then fields t1 t2 t3 else None
      | _ => None
      end
  end.

(** The outcome of a load whose header passed every check: loaded, an
    exception, or one of the messages of the pixel data. *)
Definition header_accepted (o : Outcome) : Prop :=
  match diagOf o with
  | Some d => In d [UnexpectedEOFBeforePixelData; UnexpectedEndOfPixels;
                    UnexpectedEndOfBinaryPixels; InvalidPixelToken]
  | None => True
  end.

(** ** Example documents *)

Definition nl : bytes := [LF].

(** ["P3\n2 2\n255\n255 0 0  0 255 0  0 0 255  255 255 255\n"] *)
Definition doc_2x2 : bytes :=
  lit "P3" ++ nl ++ lit "2 2" ++ nl ++ lit "255" ++ nl
  ++ lit "255 0 0  0 255 0  0 0 255  255 255 255" ++ nl.

(** ["P3\n1 1\n100\n50 50 50\n"] *)
Definition doc_max100 : bytes :=
  lit "P3" ++ nl ++ lit "1 1" ++ nl ++ lit "100" ++ nl ++ lit "50 50 50" ++ nl.

(** ["P3\n2 2\nx\n"]: a maxValue that is not a number. *)
Definition doc_bad_maxval : bytes :=
  lit "P3" ++ nl ++ lit "2 2" ++ nl ++ lit "x" ++ nl.

(** ["P6\n1 1\n100\n"] and the bytes C8 00 32: red 200 is above maxValue. *)
Definition doc_p6_over_max : bytes :=
  lit "P6" ++ nl ++ lit "1 1" ++ nl ++ lit "100" ++ nl
  ++ [byte_of 200; byte_of 0; byte_of 50].

(** ["P6\n1 1\n255\n"] and the bytes 0A 14 1E. *)
Definition doc_p6 : bytes :=
  lit "P6" ++ nl ++ lit "1 1" ++ nl ++ lit "255" ++ nl
  ++ [byte_of 10; byte_of 20; byte_of 30].

(** ["P6\n30000 10000\n255\n"]: 300,000,000 pixels declared. *)
Definition header_p6_too_large : bytes :=
  lit "P6" ++ nl ++ lit "30000" ++ lit " " ++ lit "10000" ++ nl
  ++ lit "255" ++ nl.

(** EF BB BF ["P3\n1 1\n255\nx 0 0\n"]: a pixel token that is not a number,
    behind a UTF-8 byte order mark. *)
Definition doc_bom_bad_pixel : bytes :=
  BOM_UTF8 ++ lit "P3" ++ nl ++ lit "1 1" ++ nl ++ lit "255" ++ nl
  ++ lit "x 0 0" ++ nl.

(** EF BB BF ["P3\n1 1\n255\n12#x 12abc 7\n"]: pixel tokens with bytes after
    the number, behind a UTF-8 byte order mark. *)
Definition doc_bom_glued : bytes :=
  BOM_UTF8 ++ lit "P3" ++ nl ++ lit "1 1" ++ nl ++ lit "255" ++ nl
  ++ lit "12#x 12abc 7" ++ nl.

(** ["P3\n# made by hand\n", a non-breaking space, "1 1 255\n1 2 3 #end"] *)
Definition doc_comments : bytes :=
  lit "P3" ++ nl ++ lit "# made by hand" ++ nl
  ++ [byte_of 0xC2; byte_of 0xA0] ++ lit "1 1 255" ++ nl ++ lit "1 2 3 #end".

(** ** Tactics *)

Ltac break_match :=
  match goal with
  | |- context [match ?x with _ => _ end] => destruct x eqn:?
  end.

Ltac break_match_in H :=
  match type of H with
  | context [match ?x with _ => _ end] => destruct x eqn:?
  end.

(** * Properties *)

(** ** The token normalizer *)

Lemma normalizeBody_changed s s' :
  normalizeBody s = (true, s') -> s <> [] ->
  exists p, p <> [] /\ s = p ++ s' /\ Forall strippable p.
Proof.
  unfold normalizeBody, size. intros H Hne.
  destruct ((3 <=? Z.of_nat (length s)) && (at_ s 0 =? 0xEF)
            && (at_ s 1 =? 0xBB) && (at_ s 2 =? 0xBF)) eqn:E3.
  - inversion H; subst.
    repeat (apply andb_true_iff in E3; destruct E3 as [E3 ?]).
    exists (firstn 3 s). split; [destruct s; [congruence | discriminate]|].
    split; [symmetry; apply firstn_skipn|].
    destruct s as [|c0 [|c1 [|c2 t]]]; simpl in E3; try lia.
    unfold at_ in *; simpl in *. unfold strippable.
    repeat constructor; lia.
  - destruct ((2 <=? Z.of_nat (length s)) && (at_ s 0 =? 0xC2)
              && (at_ s 1 =? 0xA0)) eqn:E2.
    + inversion H; subst.
      repeat (apply andb_true_iff in E2; destruct E2 as [E2 ?]).
      exists (firstn 2 s). split; [destruct s; [congruence | discriminate]|].
      split; [symmetry; apply firstn_skipn|].
      destruct s as [|c0 [|c1 t]]; simpl in E2; try lia.
      unfold at_ in *; simpl in *. unfold strippable.
      repeat constructor; lia.
    + destruct (at_ s 0 <=? 0x20) eqn:E1; inversion H; subst.
      exists (firstn 1 s). split; [destruct s; [congruence | discriminate]|].
      split; [symmetry; apply firstn_skipn|].
      destruct s as [|c0 t]; [congruence|].
      unfold at_ in *; simpl in *. unfold strippable.
      repeat constructor; lia.
Qed.

Lemma normalizeBody_unchanged s s' :
  normalizeBody s = (false, s') -> s' = s.
Proof.
  unfold normalizeBody. intros H.
  repeat match type of H with
         | (if ?b then _ else _) = _ => destruct b
         end; inversion H; reflexivity.
Qed.

(** The loop stops within [length s] executions of its body, on a suffix of
    [s] that is empty or left unchanged by the body. *)
Lemma normalizeLoop_terminates fuel : forall changed s,
  (length s <= fuel)%nat ->
  exists k r p,
    normalizeLoop fuel changed s = Some (k, r) /\
    (k <= length s)%nat /\ s = p ++ r /\ Forall strippable p /\
    (changed = true \/ normalizeBody s = (false, s) ->
     r = [] \/ normalizeBody r = (false, r)).
Proof.
  induction fuel as [|fuel IH]; intros changed s Hlen.
  - destruct s; [|simpl in Hlen; lia].
    exists O, [], []. simpl. rewrite andb_false_r. auto 6.
  - simpl. destruct (changed && negb (is_empty s)) eqn:Hc.
    + apply andb_true_iff in Hc. destruct Hc as [_ Hne].
      assert (Hs : s <> []) by (destruct s; [discriminate | congruence]).
      destruct (normalizeBody s) as [ch s'] eqn:Hb. destruct ch.
      * destruct (normalizeBody_changed _ _ Hb Hs) as (p & Hp & -> & Fp).
        rewrite length_app in Hlen.
        assert (0 < length p)%nat by (destruct p; [congruence | simpl; lia]).
        destruct (IH true s' ltac:(lia)) as (k & r & q & -> & Hk & -> & Fq & Hx).
        exists (S k), r, (p ++ q). rewrite <- app_assoc.
        repeat split; auto.
        -- rewrite !length_app in *. lia.
        -- apply Forall_app; auto.
      * apply normalizeBody_unchanged in Hb as Hb'. subst s'.
        exists 1%nat, s, [].
        destruct fuel; simpl; (repeat split; auto);
          destruct s; solve [congruence | simpl; lia].
    + exists O, s, []. repeat split; auto; [lia|].
      intros [-> | Hb]; [|auto].
      simpl in Hc. destruct s; [auto | discriminate].
Qed.

Lemma normalizeToken_suffix s :
  exists p, s = p ++ normalizeToken s /\ Forall strippable p.
Proof.
  unfold normalizeToken.
  destruct (normalizeLoop_terminates (length s) true s (le_n _))
    as (k & r & p & -> & _ & Hs & Fp & _).
  eauto.
Qed.

Lemma normalizeLoop_false fuel s : normalizeLoop fuel false s = Some (O, s).
Proof. destruct fuel; reflexivity. Qed.

Lemma normalizeBody_shorter c t ch s' :
  normalizeBody (c :: t) = (ch, s') ->
  if ch then (length s' <= length t)%nat else s' = c :: t.
Proof.
  intros Hb. destruct ch.
  - destruct (normalizeBody_changed _ _ Hb ltac:(discriminate))
      as (p & Hp & E & _).
    apply (f_equal (@length _)) in E. rewrite length_app in E.
    destruct p; [congruence|]. simpl in E. lia.
  - now apply normalizeBody_unchanged in Hb.
Qed.

(** More fuel than [length s] changes nothing. *)
Lemma normalizeLoop_fuel f1 : forall f2 changed s,
  (length s <= f1)%nat -> (length s <= f2)%nat ->
  normalizeLoop f1 changed s = normalizeLoop f2 changed s.
Proof.
  induction f1 as [|f1 IH]; intros f2 changed s H1 H2.
  - destruct s; [|simpl in H1; lia].
    destruct f2; simpl; rewrite andb_false_r; reflexivity.
  - destruct changed; [|now rewrite !normalizeLoop_false].
    destruct s as [|c t]; [destruct f2; reflexivity|].
    destruct f2 as [|f2]; [simpl in H2; lia|].
    cbn [normalizeLoop andb negb is_empty].
    destruct (normalizeBody (c :: t)) as [ch s'] eqn:Hb.
    apply normalizeBody_shorter in Hb. destruct ch.
    + simpl in H1, H2. rewrite (IH f2 true s') by lia. reflexivity.
    + now rewrite !normalizeLoop_false.
Qed.

(** [normalizeToken] as the recursion the loop computes. *)
Lemma normalizeToken_eq s :
  normalizeToken s =
  match s with
  | [] => []
  | _ => let '(changed, s') := normalizeBody s in
         if changed then normalizeToken s' else s
  end.
Proof.
  destruct s as [|c t]; [reflexivity|].
  unfold normalizeToken at 1. cbn [length normalizeLoop andb negb is_empty].
  destruct (normalizeBody (c :: t)) as [ch s'] eqn:Hb.
  apply normalizeBody_shorter in Hb. destruct ch.
  - unfold normalizeToken.
    rewrite (normalizeLoop_fuel (length t) (length s') true s') by lia.
    destruct (normalizeLoop_terminates (length s') true s' (le_n _))
      as (k & r & p & -> & _).
    reflexivity.
  - subst s'. now rewrite normalizeLoop_false.
Qed.

(** C10. The token normalizer terminates on every token: an execution of the
    loop body on a non-empty token either removes at least one byte from its
    front or changes nothing (and the loop then exits); the loop ends within
    [length s] executions of the body, on a suffix of the token that is empty
    or that the body leaves unchanged. *)
Theorem normalizeToken_terminates (s : bytes) :
  (match s with
   | [] => True
   | _ => match normalizeBody s with
          | (true, s') =>
              (length s' < length s)%nat /\ exists p, s = p ++ s'
          | (false, s') =>
              s' = s /\ forall fuel, normalizeLoop fuel false s' = Some (O, s')
          end
   end) /\
  exists k p,
    normalizeLoop (length s) true s = Some (k, normalizeToken s) /\
    (k <= length s)%nat /\
    s = p ++ normalizeToken s /\
    (normalizeToken s = [] \/
     normalizeBody (normalizeToken s) = (false, normalizeToken s)).
Proof.
  split.
  - destruct s as [|c t]; [exact I|].
    destruct (normalizeBody (c :: t)) as [[|] s'] eqn:Hb.
    + destruct (normalizeBody_changed _ _ Hb ltac:(discriminate))
        as (p & Hp & E & _).
      split; [|eauto].
      apply (f_equal (@length _)) in E. rewrite length_app in E.
      destruct p; [congruence | simpl in *; lia].
    + apply normalizeBody_unchanged in Hb. subst s'.
      split; [reflexivity | intros; apply normalizeLoop_false].
  - unfold normalizeToken.
    destruct (normalizeLoop_terminates (length s) true s (le_n _))
      as (k & r & p & -> & Hk & Hs & _ & Hx).
    exists k, p. repeat split; auto.
Qed.

(** ** Failure paths *)

Lemma pixelsStr_failure maxVal n : forall i ss img d img',
  pixelsStr maxVal n i ss img = Return (Some d) img' -> pixels img' = [].
Proof.
  induction n as [|n IH]; intros i ss img d img' H; cbn [pixelsStr] in H;
    cbv zeta in H; [discriminate|].
  repeat break_match_in H; try discriminate;
    try (inversion H; reflexivity). eapply IH; eauto.
Qed.

Lemma pixelsP6_failure maxVal n : forall i file img d img',
  pixelsP6 maxVal n i file img = Return (Some d) img' -> pixels img' = [].
Proof.
  induction n as [|n IH]; intros i ss img d img' H; cbn [pixelsP6] in H;
    cbv zeta in H; [discriminate|].
  repeat break_match_in H; try discriminate;
    try (inversion H; reflexivity). eapply IH; eauto.
Qed.

Lemma pixelsP3_failure maxVal n : forall i file img d img',
  pixelsP3 maxVal n i file img = Return (Some d) img' -> pixels img' = [].
Proof.
  induction n as [|n IH]; intros i ss img d img' H; cbn [pixelsP3] in H;
    cbv zeta in H; [discriminate|].
  repeat break_match_in H; try discriminate;
    try (inversion H; reflexivity). eapply IH; eauto.
Qed.

(** A load that ends with an error message returns no pixel: the buffer is
    never returned partly filled. *)
Lemma LoadPPM_failure_no_pixels conv contents d img :
  LoadPPM conv contents = Return (Some d) img -> pixels img = [].
Proof.
  unfold LoadPPM. destruct contents as [file|]; [|now intros [= _ <-]].
  destruct (detect conv file) as [text|].
  - unfold parseString. cbv zeta. intros H.
    repeat break_match_in H; try discriminate;
      try (inversion H; reflexivity).
    eapply pixelsStr_failure; eauto.
  - unfold parseFile, parseP6, parseP3. cbv zeta. intros H.
    repeat break_match_in H; try discriminate;
      try (inversion H; reflexivity).
    + eapply pixelsP6_failure; eauto.
    + eapply pixelsP3_failure; eauto.
Qed.

(** C1. Not every failing load returns the zero image.  On
    ["P3\n2 2\nx\n"] the load fails on the maxValue token after width and
    height were stored: the image returned has width 2, height 2 and no
    pixel, which the caller's test [img.width > 0 && img.height > 0] takes
    for a loaded image. *)
Theorem LoadPPM_bad_maxval_keeps_dimensions :
  forall conv,
    LoadPPM conv (Some doc_bad_maxval)
    = Return (Some InvalidMaxValToken) (mkImage 2 2 []) /\
    failed (LoadPPM conv (Some doc_bad_maxval)).
Proof. intros conv. split; [vm_compute; reflexivity | exact I]. Qed.

(** C2. The binary path stores a rescaled channel without clamping it: with
    maxValue 100 the red byte 200 becomes 510, stored as 510 mod 256 = 254,
    where the clamp gives 255.  (The ASCII path does clamp, and stores 127
    for the value 50 under maxValue 100.) *)
Theorem LoadPPM_P6_wraps_channel :
  forall conv,
    LoadPPM conv (Some doc_p6_over_max)
    = Return None (mkImage 1 1 [Pixel.mk 127 0 254 0]) /\
    rescale 100 200 = 510 /\ clamp (rescale 100 200) = 255 /\
    LoadPPM conv (Some doc_max100)
    = Return None (mkImage 1 1 [Pixel.mk 127 127 127 0]).
Proof. intros conv. repeat split; vm_compute; reflexivity. Qed.

(** C4. An exception leaves [LoadPPM] on the string-parser path: behind a
    UTF-8 byte order mark the pixel token ["x"] makes [std::stoi] throw
    [std::invalid_argument] outside any [try]. *)
Theorem LoadPPM_string_pixel_token_throws :
  forall conv,
    LoadPPM conv (Some doc_bom_bad_pixel) = Throw invalid_argument.
Proof. intros conv. vm_compute. reflexivity. Qed.

(** ** Integer parsing *)

Lemma isdigit_not_space c : isdigit c = true -> isspace c = false.
Proof.
  unfold isdigit, isspace. intros H.
  apply andb_true_iff in H. destruct H as [H1 H2].
  apply Z.leb_le in H1. apply Z.leb_le in H2.
  apply orb_false_iff. split.
  - apply andb_false_iff. right. apply Z.leb_gt. lia.
  - apply Z.eqb_neq. lia.
Qed.

Lemma isdigit_not_sign c :
  isdigit c = true -> Ascii.eqb c "-" = false /\ Ascii.eqb c "+" = false.
Proof.
  intros H. split.
  - destruct (Ascii.eqb_spec c "-"); [subst; discriminate | reflexivity].
  - destruct (Ascii.eqb_spec c "+"); [subst; discriminate | reflexivity].
Qed.

Lemma digits_app ds : forall acc tail,
  forallb isdigit ds = true -> starts_with_digit tail = false ->
  digits acc (ds ++ tail) = digits acc ds.
Proof.
  induction ds as [|c ds IH]; intros acc tail Hd Ht.
  - destruct tail as [|c t]; [reflexivity|]. simpl in *. now rewrite Ht.
  - simpl in *. apply andb_true_iff in Hd. destruct Hd as [Hc Hd].
    rewrite Hc. now apply IH.
Qed.

Lemma digits_nonneg s : forall acc, 0 <= acc -> 0 <= digits acc s.
Proof.
  induction s as [|d s IHs]; intros acc Hacc; cbn [digits]; [lia|].
  destruct (isdigit d) eqn:Ed; [|lia]. apply IHs.
  unfold isdigit in Ed. apply andb_true_iff in Ed. destruct Ed as [E1 _].
  apply Z.leb_le in E1. lia.
Qed.

(** After the sign, [stoi] depends on the digit run only. *)
Lemma stoi_unsigned_app ds tail :
  ds <> [] -> forallb isdigit ds = true -> starts_with_digit tail = false ->
  stoi (ds ++ tail) = stoi ds /\
  stoi ds = (if digits 0 ds <=? INT_MAX then inl (digits 0 ds)
             else inr out_of_range).
Proof.
  intros Hne Hd Ht. destruct ds as [|c ds]; [congruence|].
  pose proof Hd as Hd'. simpl in Hd'. apply andb_true_iff in Hd'.
  destruct Hd' as [Hc _].
  pose proof (isdigit_not_space _ Hc) as Hs.
  destruct (isdigit_not_sign _ Hc) as [Hm Hp].
  pose proof digits_nonneg as Hnn.
  assert (Hmin : (INT_MIN <=? digits 0 (c :: ds)) = true).
  { apply Z.leb_le. pose proof (Hnn (c :: ds) 0 ltac:(lia)).
    unfold INT_MIN. lia. }
  unfold stoi.
  change ((c :: ds) ++ tail) with (c :: (ds ++ tail)).
  cbn [skipws]. rewrite Hs, Hm, Hp, Hc.
  change (c :: (ds ++ tail)) with ((c :: ds) ++ tail).
  rewrite (digits_app (c :: ds) 0 tail Hd Ht), Hmin. simpl andb.
  split; reflexivity.
Qed.

Lemma stoi_negative_app ds tail :
  ds <> [] -> forallb isdigit ds = true -> starts_with_digit tail = false ->
  stoi ("-"%char :: ds ++ tail) = stoi ("-"%char :: ds) /\
  stoi ("-"%char :: ds) =
    (if INT_MIN <=? - digits 0 ds then inl (- digits 0 ds)
     else inr out_of_range).
Proof.
  intros Hne Hd Ht. destruct ds as [|c ds]; [congruence|].
  pose proof Hd as Hd'. simpl in Hd'. apply andb_true_iff in Hd'.
  destruct Hd' as [Hc _].
  pose proof digits_nonneg as Hnn.
  assert (Hmax : (- digits 0 (c :: ds) <=? INT_MAX) = true).
  { apply Z.leb_le. pose proof (Hnn (c :: ds) 0 ltac:(lia)).
    unfold INT_MAX. lia. }
  unfold stoi.
  change ((c :: ds) ++ tail) with (c :: (ds ++ tail)).
  cbn [skipws]. change (isspace "-") with false. cbv iota.
  change (Ascii.eqb "-" "-") with true. cbv iota. rewrite Hc.
  change (c :: (ds ++ tail)) with ((c :: ds) ++ tail).
  rewrite (digits_app (c :: ds) 0 tail Hd Ht), Hmax, andb_true_r.
  split; reflexivity.
Qed.

Lemma stoi_plus ds : stoi ("+"%char :: ds) =
  match ds with
  | c :: _ =>
      if isdigit c then
        if (INT_MIN <=? digits 0 ds) && (digits 0 ds <=? INT_MAX)
        then inl (digits 0 ds) else inr out_of_range
      else inr invalid_argument
  | [] => inr invalid_argument
  end.
Proof. reflexivity. Qed.

(** C8. A token that begins with a decimal integer (an optional sign and at
    least one digit) and goes on with bytes that are not digits is accepted
    by [std::stoi] exactly as its numeric prefix is: the trailing bytes are
    ignored, and when the prefix is in the range of [int] the result is its
    value. *)
Theorem stoi_accepts_numeric_prefix (sign ds tail : bytes) :
  In sign [[]; lit "+"; lit "-"] ->
  ds <> [] -> forallb isdigit ds = true ->
  starts_with_digit tail = false ->
  stoi (sign ++ ds ++ tail) = stoi (sign ++ ds) /\
  (let v := if bytes_eqb sign (lit "-") then - digits 0 ds else digits 0 ds in
   INT_MIN <= v <= INT_MAX -> stoi (sign ++ ds ++ tail) = inl v).
Proof.
  intros Hsign Hne Hd Ht.
  pose proof (digits_nonneg ds 0 ltac:(lia)) as Hnn.
  simpl in Hsign. destruct Hsign as [<- | [<- | [<- | []]]]; cbn [app]; cbv zeta.
  - destruct (stoi_unsigned_app ds tail Hne Hd Ht) as [E1 E2].
    split; [exact E1|].
    replace (bytes_eqb [] (lit "-")) with false by reflexivity.
    intros [_ Hv]. rewrite E1, E2.
    apply Z.leb_le in Hv. now rewrite Hv.
  - rewrite !stoi_plus.
    assert (Hh : exists c t, ds = c :: t /\ isdigit c = true).
    { destruct ds as [|c t]; [congruence|]. simpl in Hd.
      apply andb_true_iff in Hd. destruct Hd. eauto. }
    destruct Hh as (c & t & -> & Hc).
    change ((c :: t) ++ tail) with (c :: (t ++ tail)). cbv iota. rewrite Hc.
    change (c :: (t ++ tail)) with ((c :: t) ++ tail).
    rewrite (digits_app (c :: t) 0 tail Hd Ht).
    split; [reflexivity|].
    replace (bytes_eqb ["+"%char] (lit "-")) with false by reflexivity.
    intros [Hlo Hhi].
    apply Z.leb_le in Hlo, Hhi. now rewrite Hlo, Hhi.
  - destruct (stoi_negative_app ds tail Hne Hd Ht) as [E1 E2].
    split; [exact E1|].
    replace (bytes_eqb ["-"%char] (lit "-")) with true by reflexivity.
    intros [Hlo _]. rewrite E1, E2.
    apply Z.leb_le in Hlo. now rewrite Hlo.
Qed.

Lemma stoi_accepts_numeric_prefix_witness :
  stoi (lit "12abc") = inl 12 /\ stoi (lit "12#x") = inl 12.
Proof.
  split.
  - apply (stoi_accepts_numeric_prefix [] (lit "12") (lit "abc"));
      [simpl; auto | discriminate | reflexivity | reflexivity |].
    vm_compute. split; discriminate.
  - apply (stoi_accepts_numeric_prefix [] (lit "12") (lit "#x"));
      [simpl; auto | discriminate | reflexivity | reflexivity |].
    vm_compute. split; discriminate.
Defined.

(** The two tokens of C8 as pixel values of a document: behind a byte order
    mark ["12#x"] and ["12abc"] are read as 12 and 12. *)
Example LoadPPM_reads_numeric_prefixes :
  forall conv,
    LoadPPM conv (Some doc_bom_glued)
    = Return None (mkImage 1 1 [Pixel.mk 7 12 12 0]).
Proof. intros conv. vm_compute. reflexivity. Qed.

(** ** The UTF-8 byte order mark path *)

Lemma getline_at_delim d pre post :
  ~ In d pre -> getline d (pre ++ d :: post) = (pre, post).
Proof.
  induction pre as [|c pre IH]; intros Hn; simpl.
  - now rewrite Ascii.eqb_refl.
  - destruct (Ascii.eqb_spec c d) as [->|_]; [exfalso; apply Hn; now left|].
    rewrite IH; [reflexivity|]. intros Hin. apply Hn. now right.
Qed.

Lemma getline_no_delim d s : ~ In d s -> getline d s = (s, []).
Proof.
  induction s as [|c s IH]; intros Hn; simpl; [reflexivity|].
  destruct (Ascii.eqb_spec c d) as [->|_]; [exfalso; apply Hn; now left|].
  rewrite IH; [reflexivity|]. intros Hin. apply Hn. now right.
Qed.

Lemma detect_utf8_bom conv (text : bytes) :
  detect conv (BOM_UTF8 ++ text) =
  Some (skipn 3 (fst (getline NUL (BOM_UTF8 ++ text)))).
Proof.
  unfold detect. cbn [BOM_UTF8 app].
  replace (at_ _ 0) with 0xEF by reflexivity.
  replace (at_ _ 1) with 0xBB by reflexivity.
  replace (at_ _ 2) with 0xBF by reflexivity.
  cbn [Z.eqb Pos.eqb andb getline].
  replace (Ascii.eqb (byte_of 239) NUL) with false by reflexivity.
  replace (Ascii.eqb (byte_of 187) NUL) with false by reflexivity.
  replace (Ascii.eqb (byte_of 191) NUL) with false by reflexivity.
  destruct (getline NUL text) as [line rest]. cbn [fst].
  replace (3 <=? size _) with true; [reflexivity|].
  symmetry. apply Z.leb_le. unfold size. simpl length. lia.
Qed.

(** C9. Behind a UTF-8 byte order mark the tokenizer receives only the bytes
    before the first NUL byte: whatever follows an embedded NUL is ignored,
    so the load gives what it gives on the document cut at the NUL.  In
    particular a P3 document whose pixel values continue past a NUL fails as
    truncated. *)
Theorem LoadPPM_utf8_bom_stops_at_NUL conv (pre post : bytes) :
  ~ In NUL pre ->
  detect conv (BOM_UTF8 ++ pre ++ NUL :: post) = Some pre /\
  LoadPPM conv (Some (BOM_UTF8 ++ pre ++ NUL :: post))
  = parseString pre newImage /\
  LoadPPM conv (Some (BOM_UTF8 ++ pre ++ NUL :: post))
  = LoadPPM conv (Some (BOM_UTF8 ++ pre)).
Proof.
  intros Hn.
  assert (Hb : ~ In NUL (BOM_UTF8 ++ pre)).
  { intros Hin. apply in_app_or in Hin. destruct Hin as [Hin | Hin]; [|auto].
    simpl in Hin. repeat destruct Hin as [Hin | Hin]; try discriminate; auto. }
  assert (D1 : detect conv (BOM_UTF8 ++ pre ++ NUL :: post) = Some pre).
  { rewrite detect_utf8_bom, app_assoc, (getline_at_delim _ _ _ Hb).
    reflexivity. }
  assert (D2 : detect conv (BOM_UTF8 ++ pre) = Some pre).
  { rewrite detect_utf8_bom, (getline_no_delim _ _ Hb). reflexivity. }
  unfold LoadPPM. rewrite D1, D2. auto.
Qed.

Lemma LoadPPM_utf8_bom_stops_at_NUL_witness :
  LoadPPM utf8_of_utf16
    (Some (BOM_UTF8 ++ lit "P3 1 1 255 1" ++ NUL :: lit " 2 3"))
  = Return (Some UnexpectedEndOfPixels) (mkImage 0 0 []) /\
  LoadPPM utf8_of_utf16 (Some (BOM_UTF8 ++ lit "P3 1 1 255 1" ++ lit " 2 3"))
  = Return None (mkImage 1 1 [Pixel.mk 3 2 1 0]).
Proof.
  split; [|vm_compute; reflexivity].
  destruct (LoadPPM_utf8_bom_stops_at_NUL utf8_of_utf16
              (lit "P3 1 1 255 1") (lit " 2 3")) as (_ & E & _).
  - simpl. intros H. repeat destruct H as [H | H]; try discriminate; auto.
  - rewrite E. vm_compute. reflexivity.
Defined.

(** ** The magic *)

Lemma pixelsStr_diag maxVal n : forall i ss img,
  diagOf (pixelsStr maxVal n i ss img) = None \/
  diagOf (pixelsStr maxVal n i ss img) = Some UnexpectedEndOfPixels.
Proof.
  induction n as [|n IH]; intros i ss img; cbn [pixelsStr]; cbv zeta.
  - now left.
  - repeat break_match; try (now left); try (now right). apply IH.
Qed.

Lemma pixelsP6_diag maxVal n : forall i file img,
  diagOf (pixelsP6 maxVal n i file img) = None \/
  diagOf (pixelsP6 maxVal n i file img) = Some UnexpectedEndOfBinaryPixels.
Proof.
  induction n as [|n IH]; intros i file img; cbn [pixelsP6]; cbv zeta.
  - now left.
  - repeat break_match; try (now left); try (now right). apply IH.
Qed.

Lemma pixelsP3_diag maxVal n : forall i file img,
  diagOf (pixelsP3 maxVal n i file img) = None \/
  diagOf (pixelsP3 maxVal n i file img) = Some UnexpectedEndOfPixels \/
  diagOf (pixelsP3 maxVal n i file img) = Some InvalidPixelToken.
Proof.
  induction n as [|n IH]; intros i file img; cbn [pixelsP3]; cbv zeta.
  - now left.
  - repeat break_match; try (now left); try (now right; left);
      try (now right; right). apply IH.
Qed.

(** The pixel loop in the goal gives no other message than its own. *)
Ltac loop_diag :=
  match goal with
  | |- diagOf (pixelsStr ?m ?n ?i ?s ?g) <> _ =>
      destruct (pixelsStr_diag m n i s g) as [E | E]; rewrite E; discriminate
  | |- diagOf (pixelsP6 ?m ?n ?i ?s ?g) <> _ =>
      destruct (pixelsP6_diag m n i s g) as [E | E]; rewrite E; discriminate
  | |- diagOf (pixelsP3 ?m ?n ?i ?s ?g) <> _ =>
      destruct (pixelsP3_diag m n i s g) as [E | [E | E]];
      rewrite E; discriminate
  end.

Lemma normalizeToken_fixed s :
  normalizeToken s = [] \/
  normalizeBody (normalizeToken s) = (false, normalizeToken s).
Proof.
  unfold normalizeToken.
  destruct (normalizeLoop_terminates (length s) true s (le_n _))
    as (k & r & p & -> & _ & _ & _ & Hx).
  auto.
Qed.

(** The second removal of a byte order mark (lines 259-263) finds none. *)
Lemma normalizeToken_bom_free s :
  (3 <=? size (normalizeToken s)) && (at_ (normalizeToken s) 0 =? 0xEF)
  && (at_ (normalizeToken s) 1 =? 0xBB) && (at_ (normalizeToken s) 2 =? 0xBF)
  = false.
Proof.
  destruct (normalizeToken_fixed s) as [-> | H]; [reflexivity|].
  unfold normalizeBody in H.
  destruct ((3 <=? size (normalizeToken s)) && (at_ (normalizeToken s) 0 =? 0xEF)
            && (at_ (normalizeToken s) 1 =? 0xBB)
            && (at_ (normalizeToken s) 2 =? 0xBF));
    [discriminate | reflexivity].
Qed.

Lemma parseString_diag (text : bytes) :
  match nextTokenStr text with
  | Some (token, _) =>
      if bytes_eqb (normalizeToken token) (lit "P3")
      then diagOf (parseString text newImage) <> Some NotP3
      else parseString text newImage = Return (Some NotP3) newImage
  | None =>
      parseString text newImage = Return (Some EmptyOrInvalidFile) newImage
  end.
Proof.
  unfold parseString.
  destruct (nextTokenStr text) as [[token ss]|]; [|reflexivity].
  cbv zeta.
  destruct (bytes_eqb (normalizeToken token) (lit "P3")); [|reflexivity].
  cbn [negb].
  repeat break_match; try (simpl; discriminate).
  loop_diag.
Qed.

Lemma parseFile_diag (file : bytes) :
  match nextToken file with
  | Some (token, _) =>
      if bytes_eqb (normalizeToken token) (lit "P3")
         || bytes_eqb (normalizeToken token) (lit "P6")
      then diagOf (parseFile file newImage) <> Some NotP3P6
      else parseFile file newImage = Return (Some NotP3P6) newImage
  | None =>
      parseFile file newImage = Return (Some EmptyOrInvalidFile) newImage
  end.
Proof.
  unfold parseFile.
  destruct (nextToken file) as [[token rest]|]; [|reflexivity].
  cbv zeta. rewrite normalizeToken_bom_free.
  destruct (bytes_eqb (normalizeToken token) (lit "P6")) eqn:E6.
  - rewrite orb_true_r. unfold parseP6. cbv zeta.
    repeat break_match; try (simpl; discriminate).
    loop_diag.
  - rewrite orb_false_r.
    destruct (bytes_eqb (normalizeToken token) (lit "P3")); [|reflexivity].
    cbn [negb]. unfold parseP3. cbv zeta.
    repeat break_match; try (simpl; discriminate).
    loop_diag.
Qed.

(** C3, as the code has it.  The magic is the first token, normalized.  On
    the file-stream path (no byte order mark) both ["P3"] and ["P6"] are
    accepted: the load goes on to the header fields and never reports an
    unknown magic; any other magic ends the load with that report and the
    zero image.  On the string-parser path (UTF-8, UTF-16LE or UTF-16BE byte
    order mark) only ["P3"] is accepted: every other magic, ["P6"] included,
    ends the load with the report "not a P3 file" and the zero image. *)
Theorem LoadPPM_magic_dispatch conv (file : bytes) :
  match detect conv file with
  | Some text =>
      match nextTokenStr text with
      | Some (token, _) =>
          if bytes_eqb (normalizeToken token) (lit "P3")
          then diagOf (LoadPPM conv (Some file)) <> Some NotP3
          else LoadPPM conv (Some file) = Return (Some NotP3) newImage
      | None =>
          LoadPPM conv (Some file) = Return (Some EmptyOrInvalidFile) newImage
      end
  | None =>
      match nextToken file with
      | Some (token, _) =>
          if bytes_eqb (normalizeToken token) (lit "P3")
             || bytes_eqb (normalizeToken token) (lit "P6")
          then diagOf (LoadPPM conv (Some file)) <> Some NotP3P6
          else LoadPPM conv (Some file) = Return (Some NotP3P6) newImage
      | None =>
          LoadPPM conv (Some file) = Return (Some EmptyOrInvalidFile) newImage
      end
  end.
Proof.
  unfold LoadPPM. destruct (detect conv file) as [text|].
  - apply parseString_diag.
  - apply parseFile_diag.
Qed.

(** C3 as stated fails: the binary document that loads from the plain file
    is refused for its magic behind each of the three byte order marks. *)
Lemma LoadPPM_bom_refuses_P6 :
  LoadPPM utf8_of_utf16 (Some doc_p6)
  = Return None (mkImage 1 1 [Pixel.mk 30 20 10 0]) /\
  LoadPPM utf8_of_utf16 (Some (BOM_UTF8 ++ doc_p6))
  = Return (Some NotP3) newImage /\
  LoadPPM utf8_of_utf16 (Some (BOM_UTF16LE ++ utf16le_of_ascii doc_p6))
  = Return (Some NotP3) newImage /\
  LoadPPM utf8_of_utf16 (Some (BOM_UTF16BE ++ utf16be_of_ascii doc_p6))
  = Return (Some NotP3) newImage.
Proof. repeat split; vm_compute; reflexivity. Qed.

(** ** The two tokenizers *)

Lemma nextTokenStr_eq ss :
  nextTokenStr ss =
  match extract ss with
  | None => None
  | Some (out, ss') =>
      if negb (is_empty out) && (at_ out 0 =? code HASH)
      then nextTokenStr (snd (getline LF ss'))
      else Some (normalizeToken out, ss')
  end.
Proof.
  funelim (nextTokenStr ss).
  - rewrite Hx. reflexivity.
  - rewrite e. reflexivity.
Qed.

Lemma code_inj c d : code c = code d -> c = d.
Proof.
  unfold code. intros H. apply N2Z.inj in H.
  rewrite <- (ascii_N_embedding c), <- (ascii_N_embedding d). now rewrite H.
Qed.

Lemma code_eqb c d : (code c =? code d) = Ascii.eqb c d.
Proof.
  destruct (Ascii.eqb_spec c d) as [->|Hn].
  - apply Z.eqb_refl.
  - apply Z.eqb_neq. intros H. apply Hn. now apply code_inj.
Qed.

Lemma skipBlanks_skipws ss : skipBlanks ss = skipBlanks (skipws ss).
Proof.
  induction ss as [|c t IH]; [reflexivity|].
  cbn [skipws]. destruct (isspace c) eqn:E; [|reflexivity].
  rewrite skipBlanks_equation_2, E. exact IH.
Qed.

Lemma readWord_spec s :
  s = fst (readWord s) ++ snd (readWord s) /\
  no_space (fst (readWord s)) = true /\
  at_space_or_end (snd (readWord s)) = true.
Proof.
  induction s as [|c t IH]; cbn [readWord]; [auto|].
  destruct (isspace c) eqn:E.
  - cbn. rewrite E. auto.
  - destruct (readWord t) as [w r]. cbn in *. rewrite E.
    destruct IH as (-> & Hw & Hr). auto.
Qed.

Lemma getline_past_word w : forall r,
  no_space w = true -> snd (getline LF (w ++ r)) = snd (getline LF r).
Proof.
  induction w as [|c w IH]; intros r Hw; [reflexivity|].
  cbn in Hw. apply andb_true_iff in Hw. destruct Hw as [Hc Hw].
  cbn [app getline].
  destruct (Ascii.eqb_spec c LF) as [->|_]; [discriminate|].
  specialize (IH r Hw). destruct (getline LF (w ++ r)). exact IH.
Qed.

Lemma readToken_word w : forall r,
  no_space w = true -> hash_free w = true -> at_space_or_end r = true ->
  readToken (w ++ r) = (w, r).
Proof.
  unfold hash_free.
  induction w as [|c w IH]; intros r Hw Hh Hr.
  - destruct r as [|d r]; [reflexivity|]. cbn in *. now rewrite Hr.
  - cbn in Hw, Hh. apply andb_true_iff in Hw. destruct Hw as [Hc Hw].
    apply negb_true_iff in Hc. apply negb_true_iff in Hh.
    apply orb_false_iff in Hh. destruct Hh as [Hch Hh].
    cbn [app readToken]. rewrite Hc, Hch. cbn [orb].
    rewrite IH; auto. now apply negb_true_iff.
Qed.

Lemma strippable_not_hash c : strippable c -> Ascii.eqb c HASH = false.
Proof.
  intros Hs. destruct (Ascii.eqb_spec c HASH) as [->|_]; [|reflexivity].
  unfold strippable in Hs. change (code HASH) with 35 in Hs. lia.
Qed.

Lemma hash_free_normalizeToken out :
  hash_free (normalizeToken out) = true -> hash_free out = true.
Proof.
  destruct (normalizeToken_suffix out) as (p & E & Fp).
  intros H. rewrite E. unfold hash_free in *.
  rewrite existsb_app. apply negb_true_iff in H. rewrite H, orb_false_r.
  apply negb_true_iff. clear E.
  induction Fp as [|c p Hc _ IH]; [reflexivity|].
  cbn. now rewrite (strippable_not_hash _ Hc).
Qed.

(** One call: the string tokenizer ends where the raw tokenizer ends, and a
    token it returns without ['#'] is the raw tokenizer's token, normalized,
    with the same bytes left unread. *)
Lemma tokenizers_step n : forall ss,
  (length ss <= n)%nat ->
  match nextTokenStr ss with
  | None => nextToken ss = None
  | Some (tok, rest) =>
      hash_free tok = true ->
      exists raw, nextToken ss = Some (raw, rest) /\ normalizeToken raw = tok
  end.
Proof.
  induction n as [|n IH]; intros ss Hlen.
  - destruct ss; [|simpl in Hlen; lia].
    rewrite nextTokenStr_eq. reflexivity.
  - rewrite nextTokenStr_eq. unfold extract, nextToken.
    rewrite (skipBlanks_skipws ss).
    pose proof (skipws_le ss) as Hle.
    destruct (skipws ss) as [|c t] eqn:Es; [reflexivity|].
    pose proof (skipws_head _ _ _ Es) as Hc.
    destruct (readWord_spec (c :: t)) as (Hsplit & Hw & Hr).
    destruct (readWord (c :: t)) as [out ss'] eqn:Er. cbn [fst snd] in *.
    assert (Hout : exists out', out = c :: out').
    { cbn [readWord] in Er. rewrite Hc in Er.
      destruct (readWord t). inversion Er. eauto. }
    destruct Hout as [out' ->].
    cbn [is_empty negb andb]. unfold at_. cbn [nth].
    rewrite code_eqb, skipBlanks_equation_2, Hc.
    destruct (Ascii.eqb c HASH) eqn:Eh.
    + rewrite Hsplit, getline_past_word by exact Hw.
      apply (f_equal (@length _)) in Hsplit. rewrite length_app in Hsplit.
      pose proof (getline_rest_le LF ss'). cbn [length] in *.
      apply (IH (snd (getline LF ss'))). lia.
    + intros Hh. apply hash_free_normalizeToken in Hh.
      exists (c :: out'). split; [|reflexivity].
      rewrite Hsplit, (readToken_word _ _ Hw Hh Hr). reflexivity.
Qed.

(** C5, as the code has it.  On every input on which the string tokenizer
    returns no token that contains a ['#'], the two tokenizers give the same
    sequence of tokens up to normalization: [nextTokenStr] returns the
    tokens of [nextToken], each one passed through [normalizeToken] (which
    [nextToken] leaves to its callers), and both report the end of the
    tokens after the same number of calls. *)
Theorem tokenizers_agree (n : nat) (input : bytes) :
  forallb hash_free (takeTokens nextTokenStr n input) = true ->
  takeTokens nextTokenStr n input
  = map normalizeToken (takeTokens nextToken n input).
Proof.
  revert input. induction n as [|n IH]; intros input Hh; [reflexivity|].
  cbn [takeTokens] in *.
  pose proof (tokenizers_step (length input) input (le_n _)) as Hs.
  destruct (nextTokenStr input) as [[tok rest]|].
  - cbn [forallb] in Hh. apply andb_true_iff in Hh. destruct Hh as [Ht Hh].
    destruct (Hs Ht) as (raw & -> & <-). cbn [map]. f_equal. now apply IH.
  - now rewrite Hs.
Qed.

Lemma tokenizers_agree_witness :
  takeTokens nextTokenStr 20 doc_comments
  = map normalizeToken (takeTokens nextToken 20 doc_comments) /\
  takeTokens nextTokenStr 20 doc_comments
  = [lit "P3"; lit "1"; lit "1"; lit "255"; lit "1"; lit "2"; lit "3"].
Proof.
  split; [|vm_compute; reflexivity].
  apply (tokenizers_agree 20 doc_comments). vm_compute. reflexivity.
Defined.

(** C5 as stated fails.  A non-breaking space glued to a token stays in the
    raw tokenizer's token and is stripped from the string tokenizer's; a
    ['#'] in the middle of a token ends the raw tokenizer's token and starts
    a comment, and is part of the string tokenizer's token. *)
Lemma tokenizers_differ :
  takeTokens nextToken 4 ([byte_of 0xC2; byte_of 0xA0] ++ lit "P3 7")
  = [[byte_of 0xC2; byte_of 0xA0] ++ lit "P3"; lit "7"] /\
  takeTokens nextTokenStr 4 ([byte_of 0xC2; byte_of 0xA0] ++ lit "P3 7")
  = [lit "P3"; lit "7"] /\
  takeTokens nextToken 4 (lit "12#x 5") = [lit "12"] /\
  takeTokens nextTokenStr 4 (lit "12#x 5") = [lit "12#x"; lit "5"].
Proof. repeat split; vm_compute; reflexivity. Qed.

(** ** The byte order of a stored pixel *)

Lemma store_length i px v : length (store i px v) = length v.
Proof.
  revert i. induction v as [|x v IH]; intros [|i]; simpl; auto.
Qed.

Lemma store_same i px v :
  (i < length v)%nat -> nth_error (store i px v) i = Some px.
Proof.
  revert i. induction v as [|x v IH]; intros [|i] H; simpl in *; try lia; auto.
  apply IH. lia.
Qed.

Lemma store_other i j px v :
  i <> j -> nth_error (store i px v) j = nth_error v j.
Proof.
  revert i j. induction v as [|x v IH]; intros [|i] [|j] H; simpl; auto.
  congruence.
Qed.

Lemma clamp_range v : 0 <= clamp v <= 255.
Proof. unfold clamp. lia. Qed.

Lemma to_uint8_clamp v : to_uint8 (clamp v) = clamp v.
Proof.
  unfold to_uint8. apply Z.mod_small. pose proof (clamp_range v).
  change (2 ^ 8) with 256. lia.
Qed.

Lemma sampleText_next next prep maxVal s tok s' j :
  next s = Some (tok, s') ->
  sampleText next prep maxVal s (S j) = sampleText next prep maxVal s' j.
Proof.
  intros H. unfold sampleText.
  change (takeTokens next (S (S j)) s)
    with (match next s with
          | None => []
          | Some (t, r) => t :: takeTokens next (S j) r
          end).
  rewrite H. reflexivity.
Qed.

Lemma sampleText_first next prep maxVal s tok s' v :
  next s = Some (tok, s') -> stoi (prep tok) = inl v ->
  sampleText next prep maxVal s 0 = Some (clamp (rescale maxVal v)).
Proof.
  intros H Hv. unfold sampleText. cbn [takeTokens]. rewrite H.
  cbn [nth_error]. now rewrite Hv.
Qed.

Lemma loop_done_step (sample sample' : nat -> option Z) n i img img' R G B :
  (i < length (pixels img))%nat ->
  sample 0%nat = Some R -> sample 1%nat = Some G -> sample 2%nat = Some B ->
  (forall j, sample (3 + j)%nat = sample' j) ->
  loop_done sample' n (S i) (setPixel img i (Pixel.mk B G R 0)) img' ->
  loop_done sample (S n) i img img'.
Proof.
  intros Hi HR HG HB Hs (Hw & Hh & Hl & Hold & Hnew).
  cbn [setPixel width height pixels] in *. rewrite store_length in Hl.
  repeat split; auto.
  - intros j Hj. rewrite Hold by lia. apply store_other. lia.
  - intros [|k] Hk.
    + exists R, G, B. cbn [Nat.mul Nat.add]. repeat split; auto.
      rewrite Nat.add_0_r, Hold by lia. now apply store_same.
    + destruct (Hnew k ltac:(lia)) as (R' & G' & B' & H0 & H1 & H2 & Hpx).
      exists R', G', B'.
      replace (3 * S k)%nat with (3 + 3 * k)%nat by lia.
      replace (3 + 3 * k + 1)%nat with (3 + (3 * k + 1))%nat by lia.
      replace (3 + 3 * k + 2)%nat with (3 + (3 * k + 2))%nat by lia.
      rewrite !Hs. repeat split; auto.
      replace (i + S k)%nat with (S i + k)%nat by lia. exact Hpx.
Qed.

Lemma loop_done_zero sample i img : loop_done sample 0 i img img.
Proof. repeat split; auto. intros k Hk. lia. Qed.

Lemma pixelsStr_done maxVal n : forall i ss img img',
  pixelsStr maxVal n i ss img = Return None img' ->
  (i + n <= length (pixels img))%nat ->
  loop_done (sampleText nextTokenStr normalizeToken maxVal ss) n i img img'.
Proof.
  induction n as [|n IH]; intros i ss img img' H Hlen.
  - cbn in H. inversion H. apply loop_done_zero.
  - cbn [pixelsStr] in H. cbv zeta in H.
    destruct (nextTokenStr ss) as [[sr ss1]|] eqn:E1; [|discriminate].
    destruct (nextTokenStr ss1) as [[sg ss2]|] eqn:E2; [|discriminate].
    destruct (nextTokenStr ss2) as [[sb ss3]|] eqn:E3; [|discriminate].
    destruct (stoi (normalizeToken sr)) as [r|] eqn:Er; [|discriminate].
    destruct (stoi (normalizeToken sg)) as [g|] eqn:Eg; [|discriminate].
    destruct (stoi (normalizeToken sb)) as [b|] eqn:Eb; [|discriminate].
    unfold writePixel in H. rewrite !to_uint8_clamp in H.
    apply IH in H; [|cbn; rewrite store_length; lia].
    eapply loop_done_step; [lia | | | | | exact H].
    + eapply sampleText_first; eauto.
    + erewrite sampleText_next by eauto. eapply sampleText_first; eauto.
    + erewrite !sampleText_next by eauto. eapply sampleText_first; eauto.
    + intros j. cbn [Nat.add]. erewrite !sampleText_next by eauto. reflexivity.
Qed.

Lemma pixelsP3_done maxVal n : forall i file img img',
  pixelsP3 maxVal n i file img = Return None img' ->
  (i + n <= length (pixels img))%nat ->
  loop_done (sampleText nextToken (fun tok => tok) maxVal file) n i img img'.
Proof.
  induction n as [|n IH]; intros i file img img' H Hlen.
  - cbn in H. inversion H. apply loop_done_zero.
  - cbn [pixelsP3] in H. cbv zeta in H.
    destruct (nextToken file) as [[sr file1]|] eqn:E1; [|discriminate].
    destruct (nextToken file1) as [[sg file2]|] eqn:E2; [|discriminate].
    destruct (nextToken file2) as [[sb file3]|] eqn:E3; [|discriminate].
    destruct (stoi sr) as [r|] eqn:Er; [|discriminate].
    destruct (stoi sg) as [g|] eqn:Eg; [|discriminate].
    destruct (stoi sb) as [b|] eqn:Eb; [|discriminate].
    unfold writePixel in H. rewrite !to_uint8_clamp in H.
    apply IH in H; [|cbn; rewrite store_length; lia].
    eapply loop_done_step; [lia | | | | | exact H].
    + eapply sampleText_first; eauto.
    + erewrite sampleText_next by eauto. eapply sampleText_first; eauto.
    + erewrite !sampleText_next by eauto. eapply sampleText_first; eauto.
    + intros j. cbn [Nat.add]. erewrite !sampleText_next by eauto. reflexivity.
Qed.

Lemma pixelsP6_done maxVal n : forall i file img img',
  pixelsP6 maxVal n i file img = Return None img' ->
  (i + n <= length (pixels img))%nat ->
  loop_done (sampleBinary maxVal file) n i img img'.
Proof.
  induction n as [|n IH]; intros i file img img' H Hlen.
  - cbn in H. inversion H. apply loop_done_zero.
  - cbn [pixelsP6] in H. cbv zeta in H.
    destruct file as [|c0 [|c1 [|c2 file']]]; try discriminate.
    apply IH in H; [|cbn; rewrite store_length; lia].
    eapply loop_done_step; [lia | | | | | exact H]; reflexivity.
Qed.

Lemma stoi_range s v : stoi s = inl v -> INT_MIN <= v <= INT_MAX.
Proof.
  unfold stoi.
  destruct (match skipws s with
            | [] => (false, skipws s)
            | c :: t =>
                if Ascii.eqb c "-" then (true, t)
                else if Ascii.eqb c "+" then (false, t) else (false, skipws s)
            end) as [neg s2].
  destruct s2 as [|c t]; [discriminate|].
  destruct (isdigit c); [|discriminate].
  match goal with
  | |- (if ?b then _ else _) = _ -> _ => destruct b eqn:E; [|discriminate]
  end.
  intros [= <-]. apply andb_true_iff in E. destruct E as [E1 E2].
  apply Z.leb_le in E1. apply Z.leb_le in E2. auto.
Qed.

Lemma pixelCount_exact w h :
  INT_MIN <= w <= INT_MAX -> INT_MIN <= h <= INT_MAX ->
  (w <=? 0) || (h <=? 0) = false ->
  (to_uint64 w * to_uint64 h) mod 2 ^ 64 = w * h /\ 0 < w /\ 0 < h.
Proof.
  unfold INT_MIN, INT_MAX, to_uint64. intros Hw Hh Hd.
  apply orb_false_iff in Hd. destruct Hd as [Hw0 Hh0].
  apply Z.leb_gt in Hw0. apply Z.leb_gt in Hh0.
  rewrite (Z.mod_small w), (Z.mod_small h) by lia.
  split; [|lia]. apply Z.mod_small. nia.
Qed.

Lemma loop_done_image sample w h img :
  0 < w -> 0 < h ->
  loop_done sample (Z.to_nat (w * h)) 0 (mkImage w h (resize (w * h))) img ->
  image_done sample img.
Proof.
  intros Hw Hh (Ew & Eh & El & _ & Hpx).
  cbn [width height pixels] in *. unfold resize in El.
  rewrite repeat_length in El. unfold image_done. rewrite Ew, Eh.
  repeat split; auto.
  intros k px Hk.
  assert (Hlt : (k < Z.to_nat (w * h))%nat).
  { rewrite <- El. apply nth_error_Some. congruence. }
  destruct (Hpx k Hlt) as (R & G & B & H0 & H1 & H2 & H3).
  cbn [Nat.add] in H3. rewrite H3 in Hk. inversion Hk. eauto 8.
Qed.

Lemma header_tokens next s t0 s0 t1 s1 t2 s2 t3 s3 :
  next s = Some (t0, s0) -> next s0 = Some (t1, s1) ->
  next s1 = Some (t2, s2) -> next s2 = Some (t3, s3) ->
  takeTokens next 4 s = [t0; t1; t2; t3] /\ dropTokens next 4 s = Some s3.
Proof.
  intros E0 E1 E2 E3. cbn [takeTokens dropTokens].
  rewrite E0, E1, E2, E3. auto.
Qed.

Lemma parseString_done text img :
  parseString text newImage = Return None img ->
  exists t0 t1 t2 t3 body maxVal,
    takeTokens nextTokenStr 4 text = [t0; t1; t2; t3] /\
    dropTokens nextTokenStr 4 text = Some body /\
    stoi (normalizeToken t3) = inl maxVal /\
    image_done (sampleText nextTokenStr normalizeToken maxVal body) img.
Proof.
  unfold parseString. intros H.
  destruct (nextTokenStr text) as [[t0 s0]|] eqn:E0; [|discriminate].
  cbv zeta in H.
  destruct (negb (bytes_eqb (normalizeToken t0) (lit "P3"))); [discriminate|].
  destruct (nextTokenStr s0) as [[t1 s1]|] eqn:E1; [|discriminate].
  destruct (nextTokenStr s1) as [[t2 s2]|] eqn:E2; [|discriminate].
  destruct (nextTokenStr s2) as [[t3 s3]|] eqn:E3; [|discriminate].
  destruct (stoi (normalizeToken t1)) as [w|] eqn:Ew; [|discriminate].
  destruct (stoi (normalizeToken t2)) as [h|] eqn:Eh; [|discriminate].
  destruct (stoi (normalizeToken t3)) as [maxVal|] eqn:Em; [|discriminate].
  cbn [width height pixels newImage] in H.
  destruct ((w <=? 0) || (h <=? 0)) eqn:Ed; [discriminate|].
  destruct (pixelCount_exact w h (stoi_range _ _ Ew) (stoi_range _ _ Eh) Ed)
    as (Epc & Hw & Hh).
  rewrite Epc in H.
  destruct ((w * h =? 0) || (100000000 <? w * h)); [discriminate|].
  destruct (header_tokens _ _ _ _ _ _ _ _ _ _ E0 E1 E2 E3) as [Et Eb].
  exists t0, t1, t2, t3, s3, maxVal. repeat split; auto; try lia.
  all: apply pixelsStr_done in H;
    [|cbn; unfold resize; rewrite repeat_length; lia];
    apply (loop_done_image _ w h img Hw Hh) in H; apply H.
Qed.

Lemma parseFile_done file img :
  parseFile file newImage = Return None img ->
  exists t0 t1 t2 t3 body maxVal,
    takeTokens nextToken 4 file = [t0; t1; t2; t3] /\
    dropTokens nextToken 4 file = Some body /\
    stoi (normalizeToken t3) = inl maxVal /\
    image_done
      (if bytes_eqb (normalizeToken t0) (lit "P6")
       then sampleBinary maxVal (skipn 1 body)
       else sampleText nextToken (fun tok => tok) maxVal body) img.
Proof.
  unfold parseFile. intros H.
  destruct (nextToken file) as [[t0 s0]|] eqn:E0; [|discriminate].
  cbv zeta in H. rewrite normalizeToken_bom_free in H.
  destruct (bytes_eqb (normalizeToken t0) (lit "P6")) eqn:E6.
  - unfold parseP6 in H.
    destruct (nextToken s0) as [[t1 s1]|] eqn:E1; [|discriminate].
    destruct (nextToken s1) as [[t2 s2]|] eqn:E2; [|discriminate].
    destruct (nextToken s2) as [[t3 s3]|] eqn:E3; [|discriminate].
    cbv zeta in H.
    destruct (stoi (normalizeToken t1)) as [w|] eqn:Ew; [|discriminate].
    destruct (stoi (normalizeToken t2)) as [h|] eqn:Eh; [|discriminate].
    destruct (stoi (normalizeToken t3)) as [maxVal|] eqn:Em; [|discriminate].
    cbn [width height pixels newImage] in H.
    destruct ((w <=? 0) || (h <=? 0)) eqn:Ed; [discriminate|].
    destruct (pixelCount_exact w h (stoi_range _ _ Ew) (stoi_range _ _ Eh) Ed)
      as (Epc & Hw & Hh).
    rewrite Epc in H.
    destruct ((w * h =? 0) || (100000000 <? w * h)); [discriminate|].
    destruct s3 as [|sep body]; [discriminate|].
    destruct (header_tokens _ _ _ _ _ _ _ _ _ _ E0 E1 E2 E3) as [Et Eb].
    exists t0, t1, t2, t3, (sep :: body), maxVal. rewrite E6. cbn [skipn].
    split; [exact Et|]. split; [exact Eb|]. split; [exact Em|].
    apply pixelsP6_done in H; [|cbn; unfold resize; rewrite repeat_length; lia].
    exact (loop_done_image _ w h img Hw Hh H).
  - destruct (negb (bytes_eqb (normalizeToken t0) (lit "P3"))); [discriminate|].
    unfold parseP3 in H.
    destruct (nextToken s0) as [[t1 s1]|] eqn:E1; [|discriminate].
    destruct (nextToken s1) as [[t2 s2]|] eqn:E2; [|discriminate].
    destruct (nextToken s2) as [[t3 s3]|] eqn:E3; [|discriminate].
    cbv zeta in H.
    destruct (stoi (normalizeToken t1)) as [w|] eqn:Ew; [|discriminate].
    destruct (stoi (normalizeToken t2)) as [h|] eqn:Eh; [|discriminate].
    destruct (stoi (normalizeToken t3)) as [maxVal|] eqn:Em; [|discriminate].
    cbn [width height pixels newImage] in H.
    destruct ((w <=? 0) || (h <=? 0)) eqn:Ed; [discriminate|].
    destruct (pixelCount_exact w h (stoi_range _ _ Ew) (stoi_range _ _ Eh) Ed)
      as (Epc & Hw & Hh).
    rewrite Epc in H.
    destruct ((w * h =? 0) || (100000000 <? w * h)); [discriminate|].
    destruct (header_tokens _ _ _ _ _ _ _ _ _ _ E0 E1 E2 E3) as [Et Eb].
    exists t0, t1, t2, t3, s3, maxVal. rewrite E6.
    split; [exact Et|]. split; [exact Eb|]. split; [exact Em|].
    apply pixelsP3_done in H; [|cbn; unfold resize; rewrite repeat_length; lia].
    exact (loop_done_image _ w h img Hw Hh H).
Qed.

(** C7. In every image [LoadPPM] returns as loaded, and for every pixel [k]
    of it, the four stored bytes are, in memory order: byte 0 the blue
    channel (the third value of the pixel in the file, channel [3k+2]),
    byte 1 the green channel (channel [3k+1]), byte 2 the red channel
    (channel [3k]) and byte 3 zero; the image has positive dimensions and
    exactly [width * height] pixels.  The 2 x 2 document
    ["P3\n2 2\n255\n255 0 0  0 255 0  0 0 255  255 255 255\n"] of the witness
    gives the pixels (0,0,255,0), (0,255,0,0), (255,0,0,0), (255,255,255,0). *)
Theorem LoadPPM_pixel_byte_order conv (file : bytes) (img : Image) :
  LoadPPM conv (Some file) = Return None img ->
  0 < width img /\ 0 < height img /\
  length (pixels img) = Z.to_nat (width img * height img) /\
  forall k px,
    nth_error (pixels img) k = Some px ->
    exists R G B,
      channel conv file (3 * k)%nat = Some R /\
      channel conv file (3 * k + 1)%nat = Some G /\
      channel conv file (3 * k + 2)%nat = Some B /\
      px = Pixel.mk B G R 0.
Proof.
  unfold LoadPPM, channel. intros H.
  destruct (detect conv file) as [text|].
  - apply parseString_done in H.
    destruct H as (t0 & t1 & t2 & t3 & body & maxVal & -> & -> & -> & H).
    exact H.
  - apply parseFile_done in H.
    destruct H as (t0 & t1 & t2 & t3 & body & maxVal & -> & -> & -> & H).
    destruct (bytes_eqb (normalizeToken t0) (lit "P6")); exact H.
Qed.

Lemma LoadPPM_pixel_byte_order_witness :
  LoadPPM utf8_of_utf16 (Some doc_2x2)
  = Return None
      (mkImage 2 2 [Pixel.mk 0 0 255 0; Pixel.mk 0 255 0 0;
                    Pixel.mk 255 0 0 0; Pixel.mk 255 255 255 0]) /\
  (forall k px,
     nth_error [Pixel.mk 0 0 255 0; Pixel.mk 0 255 0 0;
                Pixel.mk 255 0 0 0; Pixel.mk 255 255 255 0] k = Some px ->
     exists R G B,
       channel utf8_of_utf16 doc_2x2 (3 * k)%nat = Some R /\
       channel utf8_of_utf16 doc_2x2 (3 * k + 1)%nat = Some G /\
       channel utf8_of_utf16 doc_2x2 (3 * k + 2)%nat = Some B /\
       px = Pixel.mk B G R 0).
Proof.
  assert (E : LoadPPM utf8_of_utf16 (Some doc_2x2)
              = Return None
                  (mkImage 2 2 [Pixel.mk 0 0 255 0; Pixel.mk 0 255 0 0;
                                Pixel.mk 255 0 0 0; Pixel.mk 255 255 255 0]))
    by (vm_compute; reflexivity).
  split; [exact E|].
  apply (LoadPPM_pixel_byte_order utf8_of_utf16 doc_2x2 _ E).
Defined.

(** ** The pixel-count cap *)

Lemma nextToken_space c s : isspace c = true -> nextToken (c :: s) = nextToken s.
Proof. intros H. unfold nextToken. now rewrite skipBlanks_equation_2, H. Qed.

(** A word between blanks is the next token. *)
Lemma nextToken_word w r :
  w <> [] -> no_space w = true -> hash_free w = true ->
  at_space_or_end r = true ->
  nextToken (w ++ r) = Some (w, r).
Proof.
  intros Hne Hw Hh Hr. unfold nextToken.
  destruct w as [|c w]; [congruence|].
  pose proof Hw as Hw'. pose proof Hh as Hh'. unfold hash_free in Hh'.
  cbn in Hw', Hh'. apply andb_true_iff in Hw'. destruct Hw' as [Hc _].
  apply negb_true_iff in Hc. apply negb_true_iff in Hh'.
  apply orb_false_iff in Hh'. destruct Hh' as [Hch _].
  change ((c :: w) ++ r) with (c :: (w ++ r)).
  rewrite skipBlanks_equation_2, Hc, Hch.
  change (c :: (w ++ r)) with ((c :: w) ++ r).
  now rewrite (readToken_word _ _ Hw Hh Hr).
Qed.

Lemma parseFile_P6 file tok rest img :
  nextToken file = Some (tok, rest) ->
  bytes_eqb (normalizeToken tok) (lit "P6") = true ->
  parseFile file img = parseP6 rest img.
Proof.
  intros E E6. unfold parseFile. rewrite E. cbv zeta.
  now rewrite normalizeToken_bom_free, E6.
Qed.

(** The size check of the binary path on a header with positive dimensions:
    above 100,000,000 pixels the load ends with "too large", the dimensions
    still in the image; up to 100,000,000 it never gives that message. *)
Lemma parseP6_size_check file wstr s1 hstr s2 mstr s3 w h maxVal :
  nextToken file = Some (wstr, s1) -> nextToken s1 = Some (hstr, s2) ->
  nextToken s2 = Some (mstr, s3) ->
  stoi (normalizeToken wstr) = inl w -> stoi (normalizeToken hstr) = inl h ->
  stoi (normalizeToken mstr) = inl maxVal ->
  0 < w -> 0 < h ->
  (100000000 < w * h ->
   parseP6 file newImage = Return (Some TooLargeOrInvalid) (mkImage w h [])) /\
  (w * h <= 100000000 ->
   diagOf (parseP6 file newImage) <> Some TooLargeOrInvalid).
Proof.
  intros E1 E2 E3 Ew Eh Em Hw Hh. unfold parseP6.
  rewrite E1, E2, E3. cbv zeta. rewrite Ew, Eh, Em.
  cbn [width height pixels newImage].
  assert (Ed : (w <=? 0) || (h <=? 0) = false).
  { apply orb_false_iff. split; apply Z.leb_gt; lia. }
  rewrite Ed.
  destruct (pixelCount_exact w h (stoi_range _ _ Ew) (stoi_range _ _ Eh) Ed)
    as (-> & _ & _).
  replace (w * h =? 0) with false by (symmetry; apply Z.eqb_neq; nia).
  cbn [orb]. destruct (Z.ltb_spec 100000000 (w * h)) as [Hc | Hc];
    (split; [intros Hb; try lia; try reflexivity | intros Hb; try lia]).
  destruct s3 as [|sep body]; [discriminate|].
  loop_diag.
Qed.

(** The same check on the string-parser path, with the same outcome. *)
Lemma parseString_size_check text magic s0 wtoken s1 htoken s2 mtoken s3
  w h maxVal :
  nextTokenStr text = Some (magic, s0) ->
  bytes_eqb (normalizeToken magic) (lit "P3") = true ->
  nextTokenStr s0 = Some (wtoken, s1) -> nextTokenStr s1 = Some (htoken, s2) ->
  nextTokenStr s2 = Some (mtoken, s3) ->
  stoi (normalizeToken wtoken) = inl w -> stoi (normalizeToken htoken) = inl h ->
  stoi (normalizeToken mtoken) = inl maxVal ->
  0 < w -> 0 < h ->
  (100000000 < w * h ->
   parseString text newImage = Return (Some TooLargeOrInvalid) (mkImage w h [])) /\
  (w * h <= 100000000 ->
   diagOf (parseString text newImage) <> Some TooLargeOrInvalid).
Proof.
  intros E0 Em3 E1 E2 E3 Ew Eh Em Hw Hh. unfold parseString.
  rewrite E0. cbv zeta. rewrite Em3. cbn [negb].
  rewrite E1, E2, E3, Ew, Eh, Em.
  cbn [width height pixels newImage].
  assert (Ed : (w <=? 0) || (h <=? 0) = false).
  { apply orb_false_iff. split; apply Z.leb_gt; lia. }
  rewrite Ed.
  destruct (pixelCount_exact w h (stoi_range _ _ Ew) (stoi_range _ _ Eh) Ed)
    as (-> & _ & _).
  replace (w * h =? 0) with false by (symmetry; apply Z.eqb_neq; nia).
  cbn [orb]. destruct (Z.ltb_spec 100000000 (w * h)) as [Hc | Hc];
    (split; [intros Hb; try lia; try reflexivity | intros Hb; try lia]).
  loop_diag.
Qed.

(** The same check on the ASCII file-stream path: here the dimensions are
    reset before the return. *)
Lemma parseP3_size_check file wtoken s1 htoken s2 mtoken s3 w h maxVal :
  nextToken file = Some (wtoken, s1) -> nextToken s1 = Some (htoken, s2) ->
  nextToken s2 = Some (mtoken, s3) ->
  stoi (normalizeToken wtoken) = inl w -> stoi (normalizeToken htoken) = inl h ->
  stoi (normalizeToken mtoken) = inl maxVal ->
  0 < w -> 0 < h ->
  (100000000 < w * h ->
   parseP3 file newImage = Return (Some TooLargeOrInvalid) (mkImage 0 0 [])) /\
  (w * h <= 100000000 ->
   diagOf (parseP3 file newImage) <> Some TooLargeOrInvalid).
Proof.
  intros E1 E2 E3 Ew Eh Em Hw Hh. unfold parseP3.
  rewrite E1, E2, E3. cbv zeta. rewrite Ew, Eh, Em.
  cbn [width height pixels newImage].
  assert (Ed : (w <=? 0) || (h <=? 0) = false).
  { apply orb_false_iff. split; apply Z.leb_gt; lia. }
  rewrite Ed.
  destruct (pixelCount_exact w h (stoi_range _ _ Ew) (stoi_range _ _ Eh) Ed)
    as (-> & _ & _).
  replace (w * h =? 0) with false by (symmetry; apply Z.eqb_neq; nia).
  cbn [orb]. destruct (Z.ltb_spec 100000000 (w * h)) as [Hc | Hc];
    (split; [intros Hb; try lia; try reflexivity | intros Hb; try lia]).
  loop_diag.
Qed.

(** C6. The pixel-count cap rejects 30000 x 10000 = 300,000,000 pixels
    whatever the body holds, but on the binary path the image returned keeps
    width 30000 and height 10000 beside its empty pixel buffer; only the
    ASCII file-stream path resets the dimensions. *)
Theorem LoadPPM_P6_too_large_keeps_dimensions :
  forall conv body,
    LoadPPM conv (Some (header_p6_too_large ++ body))
    = Return (Some TooLargeOrInvalid) (mkImage 30000 10000 []).
Proof.
  intros conv body. unfold LoadPPM.
  replace (detect conv (header_p6_too_large ++ body)) with (@None bytes)
    by reflexivity.
  unfold header_p6_too_large. rewrite <- !app_assoc.
  set (s3 := nl ++ body).
  set (s2 := nl ++ lit "255" ++ s3).
  set (s1 := lit " " ++ lit "10000" ++ s2).
  set (s0 := nl ++ lit "30000" ++ s1).
  assert (E0 : nextToken (lit "P6" ++ s0) = Some (lit "P6", s0))
    by (apply nextToken_word; try reflexivity; discriminate).
  assert (E1 : nextToken s0 = Some (lit "30000", s1)).
  { unfold s0. cbn [nl app]. rewrite nextToken_space by reflexivity.
    apply nextToken_word; try reflexivity; discriminate. }
  assert (E2 : nextToken s1 = Some (lit "10000", s2)).
  { unfold s1. cbn [lit list_ascii_of_string app].
    rewrite nextToken_space by reflexivity.
    apply (nextToken_word (lit "10000")); try reflexivity; discriminate. }
  assert (E3 : nextToken s2 = Some (lit "255", s3)).
  { unfold s2. cbn [nl app]. rewrite nextToken_space by reflexivity.
    apply nextToken_word; try reflexivity; discriminate. }
  rewrite (parseFile_P6 _ _ _ _ E0) by reflexivity.
  apply (parseP6_size_check _ _ _ _ _ _ _ 30000 10000 255 E1 E2 E3);
    try reflexivity.
Qed.

(** * Further properties of the decoder and of its callers *)

(** ** The placeholder gradient *)

Lemma vresize_length n v : length (vresize n v) = n.
Proof.
  unfold vresize. rewrite length_app, length_firstn, repeat_length. lia.
Qed.

Lemma wrap_int_small z : INT_MIN <= z <= INT_MAX -> wrap_int z = z.
Proof.
  unfold wrap_int, INT_MIN, INT_MAX. intros H.
  rewrite Z.mod_small by lia. lia.
Qed.

Lemma to_uint8_small z : 0 <= z <= 255 -> to_uint8 z = z.
Proof. intros H. unfold to_uint8. apply Z.mod_small. change (2 ^ 8) with 256. lia. Qed.

Section Gradient.

Variables width height : Z.
Hypothesis Hw : 0 < width.
Hypothesis Hh : 0 < height.
Hypothesis Hsize : width * height <= INT_MAX.
Hypothesis Hw255 : width * 255 <= INT_MAX.
Hypothesis Hh255 : height * 255 <= INT_MAX.

Lemma gradient_store_value x y :
  0 <= x < width -> 0 <= y < height ->
  writePixel (Z.quot (wrap_int (x * 255)) width)
             (Z.quot (wrap_int (y * 255)) height) 128
  = gradientPixel width height x y /\
  wrap_int (wrap_int (y * width) + x) = y * width + x.
Proof.
  intros Hx Hy. unfold INT_MAX in *.
  assert (Hyw : 0 <= y * width + x < width * height) by nia.
  rewrite (wrap_int_small (x * 255)), (wrap_int_small (y * 255)),
    (wrap_int_small (y * width)), (wrap_int_small (y * width + x))
    by (unfold INT_MIN, INT_MAX; nia).
  split; [|reflexivity].
  rewrite !Z.quot_div_nonneg by lia.
  unfold writePixel, gradientPixel.
  assert (0 <= x * 255 / width <= 255).
  { split; [apply Z.div_pos; lia|].
    apply Z.div_le_upper_bound; nia. }
  assert (0 <= y * 255 / height <= 255).
  { split; [apply Z.div_pos; lia|].
    apply Z.div_le_upper_bound; nia. }
  rewrite !to_uint8_small by lia. reflexivity.
Qed.

Lemma gradientColumns_spec y n : forall x v,
  0 <= y < height -> 0 <= x -> x + Z.of_nat n <= width ->
  width * height <= Z.of_nat (length v) ->
  let v' := gradientColumns width height y n x v in
  length v' = length v /\
  (forall c, x <= c < x + Z.of_nat n ->
     nth_error v' (Z.to_nat (y * width + c))
     = Some (gradientPixel width height c y)) /\
  (forall j, (Z.of_nat j < y * width + x \/ y * width + x + Z.of_nat n <= Z.of_nat j) ->
     nth_error v' j = nth_error v j).
Proof.
  induction n as [|n IH]; intros x v Hy Hx Hn Hv; cbn zeta.
  - cbn [gradientColumns]. repeat split; auto. intros c Hc. lia.
  - cbn [gradientColumns]. cbv zeta.
    destruct (gradient_store_value x y ltac:(lia) Hy) as [-> ->].
    set (v1 := store (Z.to_nat (y * width + x)) (gradientPixel width height x y) v).
    assert (Hv1 : length v1 = length v) by apply store_length.
    destruct (IH (x + 1) v1 Hy ltac:(lia) ltac:(lia) ltac:(lia))
      as (Hl & Hin & Hout).
    assert (Hidx : 0 <= y * width + x < Z.of_nat (length v)) by nia.
    repeat split.
    + lia.
    + intros c Hc. destruct (Z.eq_dec c x) as [-> | Hne].
      * rewrite Hout by lia. apply store_same. lia.
      * apply Hin. lia.
    + intros j Hj. rewrite Hout by lia. apply store_other. lia.
Qed.

Lemma gradientRows_spec n : forall y v,
  0 <= y -> y + Z.of_nat n <= height ->
  width * height <= Z.of_nat (length v) ->
  let v' := gradientRows width height n y v in
  length v' = length v /\
  (forall r c, y <= r < y + Z.of_nat n -> 0 <= c < width ->
     nth_error v' (Z.to_nat (r * width + c))
     = Some (gradientPixel width height c r)) /\
  (forall j, (Z.of_nat j < y * width \/ (y + Z.of_nat n) * width <= Z.of_nat j) ->
     nth_error v' j = nth_error v j).
Proof.
  induction n as [|n IH]; intros y v Hy Hn Hv; cbn zeta.
  - cbn [gradientRows]. repeat split; auto. intros r c Hr. lia.
  - cbn [gradientRows].
    destruct (gradientColumns_spec y (Z.to_nat width) 0 v ltac:(lia) ltac:(lia)
                ltac:(lia) Hv) as (Hl1 & Hin1 & Hout1).
    set (v1 := gradientColumns width height y (Z.to_nat width) 0 v) in *.
    destruct (IH (y + 1) v1 ltac:(lia) ltac:(lia) ltac:(lia))
      as (Hl & Hin & Hout).
    repeat split.
    + lia.
    + intros r c Hr Hc. destruct (Z.eq_dec r y) as [-> | Hne].
      * rewrite Hout by nia. apply Hin1. lia.
      * apply Hin; lia.
    + intros j Hj. rewrite Hout by nia. apply Hout1. nia.
Qed.

End Gradient.

Lemma dummyGradient_size (g_image : Image) :
  width (dummyGradient g_image) = 800 /\
  height (dummyGradient g_image) = 600 /\
  Z.of_nat (length (pixels (dummyGradient g_image))) = 800 * 600.
Proof.
  unfold dummyGradient. cbv zeta. cbn [width height pixels].
  rewrite (wrap_int_small (800 * 600)) by (unfold INT_MIN, INT_MAX; lia).
  set (v := vresize (Z.to_nat (800 * 600)) (pixels g_image)).
  assert (Hv : Z.of_nat (length v) = 800 * 600).
  { unfold v. rewrite vresize_length. lia. }
  destruct (gradientRows_spec 800 600 ltac:(lia) ltac:(lia)
              ltac:(unfold INT_MAX; lia) ltac:(unfold INT_MAX; lia)
              ltac:(unfold INT_MAX; lia)
              (Z.to_nat 600) 0 v ltac:(lia) ltac:(lia) ltac:(lia))
    as (Hl & _ & _).
  split; [reflexivity|]. split; [reflexivity|]. lia.
Qed.

(** X16. The placeholder image [main] builds when no image was loaded is
    800 x 600 with all its 480,000 pixels written, row after row: the pixel
    at column [x] of row [y] has blue 128, green [y * 255 / 600], red
    [x * 255 / 800] and a zero fourth byte, whatever [g_image] held before. *)
Theorem dummyGradient_pixels (g_image : Image) (x y : Z) :
  0 <= x < 800 -> 0 <= y < 600 ->
  width (dummyGradient g_image) = 800 /\
  height (dummyGradient g_image) = 600 /\
  Z.of_nat (length (pixels (dummyGradient g_image))) = 800 * 600 /\
  nth_error (pixels (dummyGradient g_image)) (Z.to_nat (y * 800 + x))
  = Some (Pixel.mk 128 (y * 255 / 600) (x * 255 / 800) 0).
Proof.
  intros Hx Hy. unfold dummyGradient. cbv zeta. cbn [width height pixels].
  rewrite (wrap_int_small (800 * 600)) by (unfold INT_MIN, INT_MAX; lia).
  set (v := vresize (Z.to_nat (800 * 600)) (pixels g_image)).
  assert (Hv : Z.of_nat (length v) = 800 * 600).
  { unfold v. rewrite vresize_length. lia. }
  destruct (gradientRows_spec 800 600 ltac:(lia) ltac:(lia)
              ltac:(unfold INT_MAX; lia) ltac:(unfold INT_MAX; lia)
              ltac:(unfold INT_MAX; lia)
              (Z.to_nat 600) 0 v ltac:(lia) ltac:(lia) ltac:(lia))
    as (Hl & Hin & _).
  split; [reflexivity|]. split; [reflexivity|]. split; [lia|].
  apply (Hin y x); lia.
Qed.

Lemma dummyGradient_pixels_witness :
  nth_error (pixels (dummyGradient newImage)) (Z.to_nat (300 * 800 + 400))
  = Some (Pixel.mk 128 (300 * 255 / 600) (400 * 255 / 800) 0).
Proof.
  apply (dummyGradient_pixels newImage 400 300); lia.
Defined.

(** ** More on the token normalizer *)

Lemma normalizeToken_of_fixed r :
  r = [] \/ normalizeBody r = (false, r) -> normalizeToken r = r.
Proof.
  intros [-> | H]; [reflexivity|].
  rewrite normalizeToken_eq. destruct r; [reflexivity|]. now rewrite H.
Qed.

Lemma normalizeBody_graphic c t :
  0x20 < code c -> code c <> 0xEF -> code c <> 0xC2 ->
  normalizeBody (c :: t) = (false, c :: t).
Proof.
  intros H1 H2 H3. unfold normalizeBody, at_. cbn [nth].
  replace (code c =? 0xEF) with false by (symmetry; now apply Z.eqb_neq).
  replace (code c =? 0xC2) with false by (symmetry; now apply Z.eqb_neq).
  replace (code c <=? 0x20) with false by (symmetry; apply Z.leb_gt; lia).
  now rewrite !andb_false_r.
Qed.

(** X7. Normalizing a token twice gives what normalizing it once gives, and
    a normalized token is empty or begins with a byte above 0x20 that starts
    neither a byte order mark nor a non-breaking space. *)
Theorem normalizeToken_idempotent (s : bytes) :
  normalizeToken (normalizeToken s) = normalizeToken s /\
  match normalizeToken s with
  | [] => True
  | c :: t =>
      0x20 < code c /\
      ~ (exists u, c :: t = BOM_UTF8 ++ u) /\
      ~ (exists u, c :: t = [byte_of 0xC2; byte_of 0xA0] ++ u)
  end.
Proof.
  pose proof (normalizeToken_fixed s) as Hf.
  split; [now apply normalizeToken_of_fixed|].
  destruct (normalizeToken s) as [|c t]; [exact I|].
  destruct Hf as [Hf | Hf]; [discriminate|].
  split; [|split].
  - unfold normalizeBody, at_ in Hf. cbn [nth] in Hf.
    destruct (code c <=? 0x20) eqn:E; [|apply Z.leb_gt in E; lia].
    repeat match type of Hf with
           | (if ?b then _ else _) = _ => destruct b
           end; discriminate.
  - intros [u Hu]. rewrite Hu in Hf. unfold normalizeBody in Hf.
    replace (3 <=? size (BOM_UTF8 ++ u)) with true in Hf
      by (symmetry; apply Z.leb_le; unfold size; simpl length; lia).
    replace (at_ (BOM_UTF8 ++ u) 0) with 0xEF in Hf by reflexivity.
    replace (at_ (BOM_UTF8 ++ u) 1) with 0xBB in Hf by reflexivity.
    replace (at_ (BOM_UTF8 ++ u) 2) with 0xBF in Hf by reflexivity.
    discriminate.
  - intros [u Hu]. rewrite Hu in Hf. unfold normalizeBody in Hf.
    replace (2 <=? size ([byte_of 0xC2; byte_of 0xA0] ++ u)) with true in Hf
      by (symmetry; apply Z.leb_le; unfold size; simpl length; lia).
    replace (at_ ([byte_of 0xC2; byte_of 0xA0] ++ u) 0) with 0xC2 in Hf
      by reflexivity.
    replace (at_ ([byte_of 0xC2; byte_of 0xA0] ++ u) 1) with 0xA0 in Hf
      by reflexivity.
    rewrite andb_false_r in Hf. discriminate.
Qed.

(** X8. A token whose first byte is above 0x20 and is neither 0xEF nor 0xC2
    is left unchanged by the normalizer: the magic, and every number with
    its sign, pass through as they are. *)
Theorem normalizeToken_keeps_clean_token (c : ascii) (t : bytes) :
  0x20 < code c -> code c <> 0xEF -> code c <> 0xC2 ->
  normalizeToken (c :: t) = c :: t.
Proof.
  intros H1 H2 H3. apply normalizeToken_of_fixed. right.
  now apply normalizeBody_graphic.
Qed.

Lemma normalizeToken_keeps_clean_token_witness :
  normalizeToken (lit "P6") = lit "P6" /\
  normalizeToken (lit "-12") = lit "-12".
Proof.
  split.
  - apply (normalizeToken_keeps_clean_token "P" (lit "6")); vm_compute;
      congruence.
  - apply (normalizeToken_keeps_clean_token "-" (lit "12")); vm_compute;
      congruence.
Defined.

(** ** Rescaling *)

(** X5. For a positive maxValue that does not overflow the multiplication
    (maxValue * 255 within [int]) and a channel value between 0 and
    maxValue, rescaling gives [v * 255 / maxValue], a value between 0 and
    255 that neither the clamp nor the conversion to a byte changes; 0 stays
    0 and maxValue becomes 255. *)
Theorem rescale_in_range (maxVal v : Z) :
  0 < maxVal -> maxVal * 255 <= INT_MAX -> 0 <= v <= maxVal ->
  rescale maxVal v = v * 255 / maxVal /\
  0 <= rescale maxVal v <= 255 /\
  clamp (rescale maxVal v) = rescale maxVal v /\
  to_uint8 (rescale maxVal v) = rescale maxVal v /\
  rescale maxVal 0 = 0 /\
  rescale maxVal maxVal = 255.
Proof.
  intros Hm Ho Hv.
  assert (Hid : forall u, 0 <= u <= maxVal ->
                          rescale maxVal u = u * 255 / maxVal).
  { intros u Hu. unfold rescale.
    destruct (negb (maxVal =? 255) && (0 <? maxVal)) eqn:E.
    - rewrite wrap_int_small by (unfold INT_MIN, INT_MAX in *; nia).
      apply Z.quot_div_nonneg; lia.
    - apply andb_false_iff in E. destruct E as [E | E].
      + apply negb_false_iff, Z.eqb_eq in E. subst maxVal.
        now rewrite Z.div_mul.
      + apply Z.ltb_ge in E. lia. }
  assert (Hr : 0 <= v * 255 / maxVal <= 255).
  { split; [apply Z.div_pos; lia|]. apply Z.div_le_upper_bound; nia. }
  rewrite (Hid v Hv), (Hid 0), (Hid maxVal) by lia.
  split; [reflexivity|]. split; [exact Hr|].
  split; [unfold clamp; lia|].
  split; [apply to_uint8_small; exact Hr|].
  split; [apply Z.div_0_l; lia|].
  rewrite Z.mul_comm. apply Z.div_mul. lia.
Qed.

Lemma rescale_in_range_witness :
  rescale 100 50 = 50 * 255 / 100 /\ clamp (rescale 100 50) = rescale 100 50.
Proof.
  destruct (rescale_in_range 100 50) as (E & _ & Ec & _);
    [lia | unfold INT_MAX; lia | lia |].
  split; [exact E | exact Ec].
Defined.

(** X6. The stored channel is monotone in the value read: as long as the
    multiplication by 255 stays within [int], a larger value never gives a
    smaller stored channel, whatever maxValue is. *)
Theorem stored_channel_monotone (maxVal v1 v2 : Z) :
  INT_MIN <= v1 * 255 -> v2 * 255 <= INT_MAX -> v1 <= v2 ->
  clamp (rescale maxVal v1) <= clamp (rescale maxVal v2).
Proof.
  intros H1 H2 Hle.
  assert (Hm : rescale maxVal v1 <= rescale maxVal v2).
  { unfold rescale.
    destruct (negb (maxVal =? 255) && (0 <? maxVal)) eqn:E; [|exact Hle].
    apply andb_true_iff in E. destruct E as [_ E]. apply Z.ltb_lt in E.
    rewrite !wrap_int_small by (unfold INT_MIN, INT_MAX in *; lia).
    apply Z.quot_le_mono; lia. }
  unfold clamp. lia.
Qed.


Lemma stored_channel_monotone_witness :
  clamp (rescale 100 (-3)) <= clamp (rescale 100 250).
Proof.
  apply (stored_channel_monotone 100 (-3) 250); unfold INT_MIN, INT_MAX; lia.
Defined.

(** ** What a load returns *)

Lemma pixelsStr_failure_zero maxVal n : forall i ss img d img',
  pixelsStr maxVal n i ss img = Return (Some d) img' -> img' = mkImage 0 0 [].
Proof.
  induction n as [|n IH]; intros i ss img d img' H; cbn [pixelsStr] in H;
    cbv zeta in H; [discriminate|].
  repeat break_match_in H; try discriminate;
    try (inversion H; reflexivity). eapply IH; eauto.
Qed.

Lemma pixelsP6_failure_zero maxVal n : forall i file img d img',
  pixelsP6 maxVal n i file img = Return (Some d) img' -> img' = mkImage 0 0 [].
Proof.
  induction n as [|n IH]; intros i ss img d img' H; cbn [pixelsP6] in H;
    cbv zeta in H; [discriminate|].
  repeat break_match_in H; try discriminate;
    try (inversion H; reflexivity). eapply IH; eauto.
Qed.

Lemma pixelsP3_failure_zero maxVal n : forall i file img d img',
  pixelsP3 maxVal n i file img = Return (Some d) img' -> img' = mkImage 0 0 [].
Proof.
  induction n as [|n IH]; intros i ss img d img' H; cbn [pixelsP3] in H;
    cbv zeta in H; [discriminate|].
  repeat break_match_in H; try discriminate;
    try (inversion H; reflexivity). eapply IH; eauto.
Qed.

(** A loaded image has positive dimensions and all its pixels. *)
Lemma LoadPPM_loaded_full conv contents img :
  LoadPPM conv contents = Return None img ->
  0 < width img /\ 0 < height img /\
  length (pixels img) = Z.to_nat (width img * height img).
Proof.
  unfold LoadPPM. destruct contents as [file|]; [|discriminate].
  destruct (detect conv file) as [text|]; intros H.
  - apply parseString_done in H.
    destruct H as (? & ? & ? & ? & ? & ? & _ & _ & _ & H1 & H2 & H3 & _).
    auto.
  - apply parseFile_done in H.
    destruct H as (? & ? & ? & ? & ? & ? & _ & _ & _ & H1 & H2 & H3 & _).
    auto.
Qed.

(** X1. The pixel buffer [LoadPPM] returns is never partly filled: after an
    error message it is empty, and after a successful load it is not empty
    and holds exactly [width * height] pixels. *)
Theorem LoadPPM_buffer_empty_or_full conv (contents : option bytes) :
  match LoadPPM conv contents with
  | Return (Some _) img => pixels img = []
  | Return None img =>
      pixels img <> [] /\
      length (pixels img) = Z.to_nat (width img * height img)
  | Throw _ => True
  end.
Proof.
  destruct (LoadPPM conv contents) as [[d|] img|e] eqn:E; [| |exact I].
  - eapply LoadPPM_failure_no_pixels; eauto.
  - destruct (LoadPPM_loaded_full _ _ _ E) as (Hw & Hh & Hl).
    split; [|exact Hl]. intros Hnil. rewrite Hnil in Hl. simpl in Hl.
    assert (0 < width img * height img) by nia. lia.
Qed.

(** X2. Every error message other than the seven that follow the storing of
    width or height (bad width/height or maxValue token, invalid dimensions,
    size cap, missing separator before binary data) comes with the zero
    image: width 0, height 0, no pixel.  This covers an unreadable or empty
    file, an unknown magic, a missing header field, and every truncation or
    bad token inside the pixel data. *)
Theorem LoadPPM_error_zero_image conv (contents : option bytes) d img :
  LoadPPM conv contents = Return (Some d) img ->
  keeps_dimensions d = false ->
  img = mkImage 0 0 [].
Proof.
  unfold LoadPPM. destruct contents as [file|];
    [|intros [= <- <-] _; reflexivity].
  destruct (detect conv file) as [text|].
  - unfold parseString. cbv zeta. intros H Hk.
    repeat break_match_in H; try discriminate;
      try (inversion H; subst; first [reflexivity | discriminate]).
    eapply pixelsStr_failure_zero; eauto.
  - unfold parseFile, parseP6, parseP3. cbv zeta. intros H Hk.
    repeat break_match_in H; try discriminate;
      try (inversion H; subst; first [reflexivity | discriminate]).
    + eapply pixelsP6_failure_zero; eauto.
    + eapply pixelsP3_failure_zero; eauto.
Qed.

Lemma LoadPPM_error_zero_image_witness :
  LoadPPM utf8_of_utf16 (Some (lit "P3 2 2 255 1 2 3")) 
  = Return (Some UnexpectedEndOfPixels) (mkImage 0 0 []).
Proof.
  assert (E : exists img, LoadPPM utf8_of_utf16 (Some (lit "P3 2 2 255 1 2 3"))
                          = Return (Some UnexpectedEndOfPixels) img)
    by (eexists; vm_compute; reflexivity).
  destruct E as [img E]. rewrite E. f_equal.
  exact (LoadPPM_error_zero_image _ _ _ _ E eq_refl).
Defined.

(** X3. A loaded image has a width and a height between 1 and [INT_MAX]
    and at most 100,000,000 pixels. *)
Theorem LoadPPM_loaded_within_cap conv (contents : option bytes) img :
  LoadPPM conv contents = Return None img ->
  0 < width img <= INT_MAX /\ 0 < height img <= INT_MAX /\
  width img * height img <= 100000000 /\
  Z.of_nat (length (pixels img)) <= 100000000.
Proof.
  intros H.
  destruct (LoadPPM_loaded_full _ _ _ H) as (Hw & Hh & Hl).
  assert (Hb : width img <= INT_MAX /\ height img <= INT_MAX /\
               width img * height img <= 100000000).
  { revert H. unfold LoadPPM. destruct contents as [file|]; [|discriminate].
    assert (Hcap : forall w h,
              (w * h =? 0) || (100000000 <? w * h) = false ->
              w * h <= 100000000).
    { intros w h E. apply orb_false_iff in E. destruct E as [_ E].
      now apply Z.ltb_ge in E. }
    destruct (detect conv file) as [text|].
    - unfold parseString. cbv zeta. intros H.
      repeat break_match_in H; try discriminate.
      cbn [width height pixels newImage] in *.
      match goal with
      | Ew : stoi _ = inl ?w, Eh : stoi _ = inl ?h, Em : stoi _ = inl _,
        Ed : (?w <=? 0) || (?h <=? 0) = false |- _ =>
          destruct (pixelCount_exact w h (stoi_range _ _ Ew) (stoi_range _ _ Eh) Ed)
            as (Epc & _ & _);
          pose proof (stoi_range _ _ Ew); pose proof (stoi_range _ _ Eh)
      end.
      rewrite Epc in *.
      apply pixelsStr_done in H;
        [|cbn; unfold resize; rewrite repeat_length; lia].
      destruct H as (-> & -> & _). cbn [width height].
      repeat split; try lia; now apply Hcap.
    - unfold parseFile, parseP6, parseP3. cbv zeta. intros H.
      repeat break_match_in H; try discriminate;
      cbn [width height pixels newImage] in *;
      match goal with
      | Ew : stoi _ = inl ?w, Eh : stoi _ = inl ?h, Em : stoi _ = inl _,
        Ed : (?w <=? 0) || (?h <=? 0) = false |- _ =>
          destruct (pixelCount_exact w h (stoi_range _ _ Ew) (stoi_range _ _ Eh) Ed)
            as (Epc & _ & _);
          pose proof (stoi_range _ _ Ew); pose proof (stoi_range _ _ Eh)
      end;
      rewrite Epc in *.
      + apply pixelsP6_done in H;
          [|cbn; unfold resize; rewrite repeat_length; lia].
        destruct H as (-> & -> & _). cbn [width height].
        repeat split; try lia; now apply Hcap.
      + apply pixelsP3_done in H;
          [|cbn; unfold resize; rewrite repeat_length; lia].
        destruct H as (-> & -> & _). cbn [width height].
        repeat split; try lia; now apply Hcap. }
  destruct Hb as (Hbw & Hbh & Hc). repeat split; try lia.
Qed.

Lemma LoadPPM_loaded_within_cap_witness :
  width (mkImage 2 2 [Pixel.mk 0 0 255 0; Pixel.mk 0 255 0 0;
                      Pixel.mk 255 0 0 0; Pixel.mk 255 255 255 0])
  * height (mkImage 2 2 [Pixel.mk 0 0 255 0; Pixel.mk 0 255 0 0;
                         Pixel.mk 255 0 0 0; Pixel.mk 255 255 255 0])
  <= 100000000.
Proof.
  refine (proj1 (proj2 (proj2
    (LoadPPM_loaded_within_cap utf8_of_utf16 (Some doc_2x2) _ _)))).
  vm_compute. reflexivity.
Defined.

Lemma sampleText_byte next prep maxVal s j v :
  sampleText next prep maxVal s j = Some v -> is_byte v.
Proof.
  unfold sampleText. intros H. repeat break_match_in H; try discriminate.
  inversion H. apply clamp_range.
Qed.

Lemma sampleBinary_byte maxVal s j v :
  sampleBinary maxVal s j = Some v -> is_byte v.
Proof.
  unfold sampleBinary. intros H. break_match_in H; [|discriminate].
  inversion H. unfold is_byte, to_uint8.
  pose proof (Z.mod_pos_bound (rescale maxVal (code a)) (2 ^ 8) eq_refl).
  change (2 ^ 8) with 256 in *. lia.
Qed.

Lemma image_done_bytes sample img :
  (forall j v, sample j = Some v -> is_byte v) ->
  image_done sample img ->
  Forall (fun px => is_byte (Pixel.b px) /\ is_byte (Pixel.g px) /\
                    is_byte (Pixel.r px) /\ Pixel.a px = 0) (pixels img).
Proof.
  intros Hs (_ & _ & _ & Hpx). apply Forall_forall. intros px Hin.
  apply In_nth_error in Hin. destruct Hin as [k Hk].
  destruct (Hpx k px Hk) as (R & G & B & HR & HG & HB & ->).
  cbn. split; [eapply Hs; eauto|]. split; [eapply Hs; eauto|].
  split; [eapply Hs; eauto | reflexivity].
Qed.

(** X4. In a loaded image every stored channel is a byte (0 to 255) and the
    fourth byte of every pixel is 0, on the ASCII paths and on the binary
    path. *)
Theorem LoadPPM_stored_bytes conv (contents : option bytes) img :
  LoadPPM conv contents = Return None img ->
  Forall (fun px => is_byte (Pixel.b px) /\ is_byte (Pixel.g px) /\
                    is_byte (Pixel.r px) /\ Pixel.a px = 0) (pixels img).
Proof.
  unfold LoadPPM. destruct contents as [file|]; [|discriminate].
  destruct (detect conv file) as [text|]; intros H.
  - apply parseString_done in H.
    destruct H as (? & ? & ? & ? & ? & ? & _ & _ & _ & H).
    eapply image_done_bytes; [|exact H]. apply sampleText_byte.
  - apply parseFile_done in H.
    destruct H as (t0 & ? & ? & ? & ? & ? & _ & _ & _ & H).
    eapply image_done_bytes; [|exact H].
    destruct (bytes_eqb (normalizeToken t0) (lit "P6")).
    + apply sampleBinary_byte.
    + apply sampleText_byte.
Qed.

Lemma LoadPPM_stored_bytes_witness :
  Forall (fun px => is_byte (Pixel.b px) /\ is_byte (Pixel.g px) /\
                    is_byte (Pixel.r px) /\ Pixel.a px = 0)
    [Pixel.mk 127 0 254 0].
Proof.
  apply (LoadPPM_stored_bytes utf8_of_utf16 (Some doc_p6_over_max)
           (mkImage 1 1 [Pixel.mk 127 0 254 0])).
  vm_compute. reflexivity.
Defined.

(** ** The display shell *)

Lemma dummyGradient_paintable g : paintable (dummyGradient g).
Proof.
  destruct (dummyGradient_size g) as (Ew & Eh & El).
  unfold paintable. rewrite Ew, Eh.
  split; [lia|]. split; [lia|]. right. lia.
Qed.

Lemma LoadPPM_returned_paintable conv contents d img :
  LoadPPM conv contents = Return d img ->
  0 < width img -> 0 < height img -> paintable img.
Proof.
  intros H Hw Hh. repeat split; auto. destruct d as [d|].
  - left. eapply LoadPPM_failure_no_pixels; eauto.
  - right. now destruct (LoadPPM_loaded_full _ _ _ H) as (_ & _ & Hl).
Qed.

Lemma orGradient_paintable conv contents d img :
  LoadPPM conv contents = Return d img -> paintable (orGradient img).
Proof.
  intros H. unfold orGradient.
  destruct ((width img <=? 0) || (height img <=? 0)) eqn:E.
  - apply dummyGradient_paintable.
  - apply orb_false_iff in E. destruct E as [E1 E2].
    apply Z.leb_gt in E1. apply Z.leb_gt in E2.
    eapply LoadPPM_returned_paintable; eauto.
Qed.

Lemma mainImage_paintable conv argv1 g :
  mainImage conv argv1 = Some g -> paintable g.
Proof.
  unfold mainImage. destruct argv1 as [contents|].
  - destruct (LoadPPM conv contents) as [d img|e] eqn:E; [|discriminate].
    intros [= <-]. eapply orGradient_paintable; eauto.
  - intros [= <-]. unfold orGradient. cbn. apply dummyGradient_paintable.
Qed.

Lemma onFileOpen_paintable conv g chosen g' shown :
  paintable g -> onFileOpen conv g chosen = Some (g', shown) -> paintable g'.
Proof.
  intros Hg. unfold onFileOpen. destruct chosen as [contents|].
  - destruct (LoadPPM conv contents) as [d img|e] eqn:E; [|discriminate].
    destruct ((0 <? width img) && (0 <? height img)) eqn:Ed.
    + intros [= <- _]. apply andb_true_iff in Ed. destruct Ed as [E1 E2].
      apply Z.ltb_lt in E1. apply Z.ltb_lt in E2.
      eapply LoadPPM_returned_paintable; eauto.
    + now intros [= <- _].
  - now intros [= <- _].
Qed.

Lemma afterOpens_paintable conv commands : forall g g',
  paintable g -> afterOpens conv g commands = Some g' -> paintable g'.
Proof.
  induction commands as [|chosen commands IH]; intros g g' Hg H.
  - now inversion H; subst.
  - cbn [afterOpens] in H.
    destruct (onFileOpen conv g chosen) as [[g1 shown]|] eqn:E; [|discriminate].
    eapply IH; [|exact H]. eapply onFileOpen_paintable; eauto.
Qed.

(** X17. Whatever file [main] was started with and whatever files were
    opened from the menu afterwards (as long as no exception ended the
    program), a paint hands [StretchDIBits] positive dimensions and a buffer
    of exactly [width * height] pixels: the blit never reads outside the
    pixel buffer. *)
Theorem paint_reads_inside_buffer conv argv1 commands g0 g w h v :
  mainImage conv argv1 = Some g0 ->
  afterOpens conv g0 commands = Some g ->
  onPaint g = Some (w, h, v) ->
  0 < w /\ 0 < h /\ v <> [] /\ length v = Z.to_nat (w * h).
Proof.
  intros H0 Hrun Hp.
  pose proof (afterOpens_paintable _ _ _ _ (mainImage_paintable _ _ _ H0) Hrun)
    as (Hw & Hh & Hl).
  unfold onPaint in Hp.
  destruct ((0 <? width g) && negb (vempty (pixels g))) eqn:E; [|discriminate].
  inversion Hp; subst. apply andb_true_iff in E. destruct E as [_ E].
  assert (Hne : pixels g <> []) by (destruct (pixels g); [discriminate | congruence]).
  repeat split; auto. destruct Hl as [Hl | Hl]; [contradiction | exact Hl].
Qed.

Lemma paint_reads_inside_buffer_witness :
  length [Pixel.mk 127 127 127 0] = Z.to_nat (1 * 1).
Proof.
  refine (proj2 (proj2 (proj2
    (paint_reads_inside_buffer utf8_of_utf16 (Some (Some doc_2x2))
       [None; Some (Some doc_bad_maxval); Some (Some doc_max100)]
       _ _ 1 1 [Pixel.mk 127 127 127 0] _ _ _))));
    vm_compute; reflexivity.
Defined.

(** X18. A load that fails with positive dimensions left in the image is
    taken for a success by the shell: File/Open replaces the displayed image
    and resizes the window without an error box, [main] does not fall back
    to the gradient, and painting the image draws nothing. *)
Theorem failed_load_with_dimensions_blanks_window conv g contents d img :
  LoadPPM conv contents = Return (Some d) img ->
  0 < width img -> 0 < height img ->
  onFileOpen conv g (Some contents)
  = Some (img, ClientResized (width img) (height img)) /\
  mainImage conv (Some contents) = Some img /\
  onPaint img = None.
Proof.
  intros H Hw Hh. unfold onFileOpen, mainImage, orGradient, onPaint. rewrite H.
  apply Z.ltb_lt in Hw as Hw'. apply Z.ltb_lt in Hh as Hh'.
  rewrite Hw', Hh'. cbn [andb].
  replace (width img <=? 0) with false by (symmetry; apply Z.leb_gt; lia).
  replace (height img <=? 0) with false by (symmetry; apply Z.leb_gt; lia).
  rewrite (LoadPPM_failure_no_pixels _ _ _ _ H). auto.
Qed.

Lemma failed_load_with_dimensions_blanks_window_witness :
  onFileOpen utf8_of_utf16 (dummyGradient newImage) (Some (Some doc_bad_maxval))
  = Some (mkImage 2 2 [], ClientResized 2 2) /\
  onPaint (mkImage 2 2 []) = None.
Proof.
  destruct (failed_load_with_dimensions_blanks_window utf8_of_utf16
              (dummyGradient newImage) (Some doc_bad_maxval)
              InvalidMaxValToken (mkImage 2 2 [])) as (E1 & _ & E2);
    [vm_compute; reflexivity | reflexivity | reflexivity |].
  split; [exact E1 | exact E2].
Defined.

(** ** More on the tokenizers *)

Lemma getline_split d s :
  exists pre, s = pre ++ snd (getline d s) /\
              (length (snd (getline d s)) <= length s)%nat.
Proof.
  induction s as [|c t IH]; [exists []; auto|].
  cbn [getline]. destruct (Ascii.eqb c d).
  - exists [c]. cbn. auto.
  - destruct IH as (pre & E & Hl). destruct (getline d t) as [line rest].
    cbn [snd] in *. exists (c :: pre). cbn. rewrite <- E. auto.
Qed.

Lemma skipBlanks_result n : forall s s',
  (length s <= n)%nat -> skipBlanks s = Some s' ->
  (exists skipped, s = skipped ++ s') /\
  at_token_end s' = false.
Proof.
  induction n as [|n IH]; intros s s' Hlen H.
  - destruct s; [discriminate | simpl in Hlen; lia].
  - destruct s as [|c t]; [discriminate|].
    rewrite skipBlanks_equation_2 in H. cbn [length] in Hlen.
    destruct (isspace c) eqn:Es.
    + destruct (IH t s' ltac:(lia) H) as ([skipped E] & He).
      split; [exists (c :: skipped); cbn; now rewrite <- E | exact He].
    + destruct (Ascii.eqb c HASH) eqn:Eh.
      * destruct (getline_split LF (c :: t)) as (pre & E & Hl).
        assert (Hl' : (length (snd (getline LF (c :: t))) <= n)%nat).
        { cbn [getline] in *. destruct (Ascii.eqb c LF); cbn [snd] in *; [lia|].
          pose proof (getline_rest_le LF t).
          destruct (getline LF t); cbn [snd] in *. lia. }
        destruct (IH _ s' Hl' H) as ([skipped E'] & He).
        split; [|exact He]. exists (pre ++ skipped).
        rewrite <- app_assoc, <- E'. exact E.
      * inversion H; subst. split; [exists []; reflexivity|].
        cbn. now rewrite Es, Eh.
Qed.

Lemma readToken_result s :
  s = fst (readToken s) ++ snd (readToken s) /\
  no_space (fst (readToken s)) = true /\
  hash_free (fst (readToken s)) = true /\
  at_token_end (snd (readToken s)) = true.
Proof.
  unfold hash_free.
  induction s as [|c t IH]; cbn [readToken]; [auto|].
  destruct (isspace c || Ascii.eqb c HASH) eqn:E.
  - cbn. rewrite E. auto.
  - destruct (readToken t) as [out rest]. cbn in *.
    apply orb_false_iff in E. destruct E as [Es Eh]. rewrite Es, Eh. cbn.
    destruct IH as (-> & Hw & Hh & Hr). auto.
Qed.

(** X9. A token the raw tokenizer returns is not empty, holds neither
    whitespace nor ['#'], and stands in the input between what was skipped
    and what is left unread; the unread part is empty or begins with
    whitespace or ['#'], and is strictly shorter than the input. *)
Theorem nextToken_token (s tok rest : bytes) :
  nextToken s = Some (tok, rest) ->
  tok <> [] /\ no_space tok = true /\ hash_free tok = true /\
  (exists skipped, s = skipped ++ tok ++ rest) /\
  at_token_end rest = true /\
  (length rest < length s)%nat.
Proof.
  unfold nextToken. intros H.
  destruct (skipBlanks s) as [s'|] eqn:Es; [|discriminate].
  destruct (skipBlanks_result _ _ _ (le_n _) Es) as ([skipped E] & _).
  destruct (readToken_result s') as (Hsplit & Hw & Hh & Hr).
  destruct (readToken s') as [out rest'] eqn:Er. cbn [fst snd] in *.
  destruct out as [|c out]; [discriminate|]. cbn [is_empty] in H.
  inversion H; subst tok rest'.
  split; [discriminate|]. split; [exact Hw|]. split; [exact Hh|].
  split; [exists skipped; now rewrite <- Hsplit|]. split; [exact Hr|].
  rewrite E, Hsplit, !length_app. cbn [length]. lia.
Qed.

Lemma nextToken_token_witness :
  hash_free (lit "12") = true /\ at_token_end (lit "#x 5") = true.
Proof.
  destruct (nextToken_token (lit "  12#x 5") (lit "12") (lit "#x 5"))
    as (_ & _ & Hh & _ & Hr & _); [vm_compute; reflexivity|].
  split; [exact Hh | exact Hr].
Defined.

Lemma no_space_app a b : no_space (a ++ b) = no_space a && no_space b.
Proof. apply forallb_app. Qed.

Lemma skipws_split s : exists ws, s = ws ++ skipws s.
Proof.
  induction s as [|c t [ws E]]; [exists []; reflexivity|].
  cbn [skipws]. destruct (isspace c).
  - exists (c :: ws). cbn. now rewrite <- E.
  - exists []. reflexivity.
Qed.

Lemma nextTokenStr_result n : forall s tok rest,
  (length s <= n)%nat ->
  nextTokenStr s = Some (tok, rest) ->
  no_space tok = true /\
  normalizeToken tok = tok /\
  (exists before, s = before ++ tok ++ rest) /\
  at_space_or_end rest = true /\
  (length rest < length s)%nat.
Proof.
  induction n as [|n IH]; intros s tok rest Hlen H.
  - destruct s; [|simpl in Hlen; lia].
    rewrite nextTokenStr_eq in H. discriminate.
  - rewrite nextTokenStr_eq in H.
    destruct (extract s) as [[out ss']|] eqn:Ex; [|discriminate].
    pose proof (extract_shorter _ _ _ Ex) as Hsh.
    unfold extract in Ex. destruct (skipws_split s) as [ws Ews].
    destruct (skipws s) as [|c t] eqn:Esk; [discriminate|].
    assert (Er : readWord (c :: t) = (out, ss')) by congruence. clear Ex.
    destruct (readWord_spec (c :: t)) as (Hsplit & Hw & Hr).
    rewrite Er in Hsplit, Hw, Hr. cbn [fst snd] in *.
    destruct (negb (is_empty out) && (at_ out 0 =? code HASH)).
    + destruct (getline_split LF ss') as (pre & E & Hl).
      destruct (IH (snd (getline LF ss')) tok rest ltac:(lia) H)
        as (Hn & Hfix & [before Eb] & Hre & Hlt).
      split; [exact Hn|]. split; [exact Hfix|].
      split; [|split; [exact Hre | lia]].
      exists (ws ++ out ++ pre ++ before).
      rewrite Ews, Hsplit, E at 1. rewrite Eb at 1.
      now rewrite <- !app_assoc.
    + inversion H; subst tok rest.
      destruct (normalizeToken_suffix out) as (p & Ep & _).
      assert (Hnt : no_space (normalizeToken out) = true).
      { rewrite Ep, no_space_app in Hw.
        now apply andb_true_iff in Hw. }
      split; [exact Hnt|].
      split; [apply normalizeToken_of_fixed, normalizeToken_fixed|].
      split; [|split; [exact Hr | exact Hsh]].
      exists (ws ++ p). rewrite Ews, Hsplit at 1. rewrite Ep at 1.
      now rewrite <- !app_assoc.
Qed.

(** X10. A token the string tokenizer returns holds no whitespace, is
    already normalized, and is followed in the input by the unread part,
    which is empty or begins with whitespace and is strictly shorter than
    the input. *)
Theorem nextTokenStr_token (s tok rest : bytes) :
  nextTokenStr s = Some (tok, rest) ->
  no_space tok = true /\
  normalizeToken tok = tok /\
  (exists before, s = before ++ tok ++ rest) /\
  at_space_or_end rest = true /\
  (length rest < length s)%nat.
Proof.
  intros H. eapply nextTokenStr_result; [apply le_n | exact H].
Qed.

Lemma nextTokenStr_token_witness :
  no_space (lit "P3") = true /\ normalizeToken (lit "P3") = lit "P3".
Proof.
  destruct (nextTokenStr_token doc_comments (lit "P3")
              (skipn 2 doc_comments)) as (Hn & Hf & _);
    [vm_compute; reflexivity|].
  split; [exact Hn | exact Hf].
Defined.

Lemma skipws_spaces ws s : forallb isspace ws = true -> skipws (ws ++ s) = skipws s.
Proof.
  induction ws as [|c ws IH]; intros H; [reflexivity|].
  cbn in H. apply andb_true_iff in H. destruct H as [Hc H].
  cbn [app skipws]. rewrite Hc. now apply IH.
Qed.

(** X11. Leading whitespace followed by a comment line (a ['#'], any bytes
    but a line feed, a line feed) is invisible to both tokenizers: the next
    token is the one of the input after the line. *)
Theorem tokenizers_skip_comment_line (ws line s : bytes) :
  forallb isspace ws = true -> ~ In LF line ->
  nextToken (ws ++ HASH :: line ++ LF :: s) = nextToken s /\
  nextTokenStr (ws ++ HASH :: line ++ LF :: s) = nextTokenStr s.
Proof.
  intros Hws Hline.
  assert (Hn : ~ In LF (HASH :: line)).
  { intros [E | Hin]; [discriminate | auto]. }
  assert (Hg : snd (getline LF (HASH :: line ++ LF :: s)) = s).
  { change (HASH :: line ++ LF :: s) with ((HASH :: line) ++ LF :: s).
    now rewrite (getline_at_delim _ _ _ Hn). }
  split.
  - unfold nextToken.
    rewrite (skipBlanks_skipws (ws ++ _)), (skipws_spaces _ _ Hws).
    cbn [skipws]. replace (isspace HASH) with false by reflexivity.
    rewrite skipBlanks_equation_2.
    replace (isspace HASH) with false by reflexivity.
    rewrite Ascii.eqb_refl, Hg. reflexivity.
  - rewrite nextTokenStr_eq. unfold extract.
    rewrite (skipws_spaces _ _ Hws). cbn [skipws].
    replace (isspace HASH) with false by reflexivity.
    destruct (readWord_spec (HASH :: line ++ LF :: s)) as (Hsplit & Hw & _).
    destruct (readWord (HASH :: line ++ LF :: s)) as [out ss'] eqn:Er.
    cbn [fst snd] in *.
    assert (Hout : exists out', out = HASH :: out').
    { cbn [readWord] in Er. replace (isspace HASH) with false in Er by reflexivity.
      destruct (readWord (line ++ LF :: s)). inversion Er. eauto. }
    destruct Hout as [out' ->].
    cbn [is_empty negb andb]. unfold at_. cbn [nth]. rewrite Z.eqb_refl.
    rewrite <- (getline_past_word _ ss' Hw), <- Hsplit, Hg. reflexivity.
Qed.

Lemma tokenizers_skip_comment_line_witness :
  nextToken (lit "  # made by hand" ++ LF :: lit "2 2") = nextToken (lit "2 2").
Proof.
  refine (proj1 (tokenizers_skip_comment_line (lit "  ") (lit " made by hand")
                   (lit "2 2") _ _)).
  - reflexivity.
  - simpl. intros H. repeat destruct H as [H | H]; try discriminate; auto.
Defined.

(** ** The binary pixel loop *)

(** X12. The binary pixel loop needs three bytes per pixel: with at least
    [3 * n] bytes unread it ends without an error message and never looks at
    the bytes after the first [3 * n]; with fewer it returns the message of
    the truncated binary data and the zero image. *)
Theorem pixelsP6_three_bytes_per_pixel maxVal (n i : nat) (file : bytes)
  (img : Image) :
  if (3 * n <=? length file)%nat
  then (exists img', pixelsP6 maxVal n i file img = Return None img') /\
       pixelsP6 maxVal n i file img
       = pixelsP6 maxVal n i (firstn (3 * n) file) img
  else pixelsP6 maxVal n i file img
       = Return (Some UnexpectedEndOfBinaryPixels) (mkImage 0 0 []).
Proof.
  revert i file img. induction n as [|n IH]; intros i file img.
  - cbn. eauto.
  - destruct file as [|c0 [|c1 [|c2 file']]];
      try (replace (3 * S n <=? _)%nat with false
             by (symmetry; apply Nat.leb_gt; cbn [length]; lia);
           reflexivity).
    specialize (IH (S i) file'
                  (setPixel img i
                     (writePixel (rescale maxVal (code c0))
                        (rescale maxVal (code c1)) (rescale maxVal (code c2))))).
    replace (3 * S n <=? length (c0 :: c1 :: c2 :: file'))%nat
      with (3 * n <=? length file')%nat.
    2:{ cbn [length]. destruct (Nat.leb_spec (3 * n) (length file'));
        symmetry; [apply Nat.leb_le | apply Nat.leb_gt]; lia. }
    replace (3 * S n)%nat with (S (S (S (3 * n)))) by lia.
    cbn [firstn pixelsP6]. cbv zeta.
    destruct (3 * n <=? length file')%nat; exact IH.
Qed.

(** ** UTF-16 *)




Lemma detect_utf16le conv raw :
  detect conv (BOM_UTF16LE ++ raw) =
  match unitsLE raw with
  | [] => None
  | _ => if 0 <? size (conv (unitsLE raw))
         then Some (conv (unitsLE raw)) else None
  end.
Proof.
  unfold detect. cbn [BOM_UTF16LE app skipn].
  replace (at_ _ 0) with 0xFF by reflexivity.
  replace (at_ _ 1) with 0xFE by reflexivity.
  reflexivity.
Qed.

Lemma detect_utf16be conv raw :
  detect conv (BOM_UTF16BE ++ raw) =
  match unitsBE raw with
  | [] => None
  | _ => if 0 <? size (conv (unitsBE raw))
         then Some (conv (unitsBE raw)) else None
  end.
Proof.
  unfold detect. cbn [BOM_UTF16BE app skipn].
  replace (at_ _ 0) with 0xFE by reflexivity.
  replace (at_ _ 1) with 0xFF by reflexivity.
  reflexivity.
Qed.



Lemma nextToken_head c s :
  isspace c = false -> Ascii.eqb c HASH = false ->
  exists out rest, nextToken (c :: s) = Some (c :: out, rest).
Proof.
  intros Hs Hh. unfold nextToken.
  rewrite skipBlanks_equation_2, Hs, Hh. cbn [readToken]. rewrite Hs, Hh.
  cbn [orb]. destruct (readToken s) as [out rest]. cbn [is_empty].
  eauto.
Qed.

Lemma parseFile_unknown_magic c s :
  isspace c = false -> Ascii.eqb c HASH = false ->
  0x20 < code c -> code c <> 0xEF -> code c <> 0xC2 ->
  Ascii.eqb c "P" = false ->
  parseFile (c :: s) newImage = Return (Some NotP3P6) newImage.
Proof.
  intros Hs Hh H1 H2 H3 Hp.
  destruct (nextToken_head c s Hs Hh) as (out & rest & E).
  unfold parseFile. rewrite E. cbv zeta.
  rewrite normalizeToken_bom_free.
  rewrite (normalizeToken_of_fixed (c :: out))
    by (right; now apply normalizeBody_graphic).
  cbn [lit list_ascii_of_string bytes_eqb]. rewrite Hp. reflexivity.
Qed.

(** X14. When a file begins with a UTF-16 byte order mark and holds no
    complete code unit, or the conversion to UTF-8 gives nothing, the load
    falls back to the file-stream parser, which refuses the byte order mark
    as an unknown magic and returns the zero image. *)
Theorem LoadPPM_utf16_undecodable conv (raw : bytes) :
  (unitsLE raw = [] \/ conv (unitsLE raw) = [] ->
   LoadPPM conv (Some (BOM_UTF16LE ++ raw))
   = Return (Some NotP3P6) newImage) /\
  (unitsBE raw = [] \/ conv (unitsBE raw) = [] ->
   LoadPPM conv (Some (BOM_UTF16BE ++ raw))
   = Return (Some NotP3P6) newImage).
Proof.
  split; intros H.
  - assert (D : detect conv (BOM_UTF16LE ++ raw) = None).
    { rewrite detect_utf16le. destruct H as [-> | H]; [reflexivity|].
      rewrite H. now destruct (unitsLE raw). }
    unfold LoadPPM. rewrite D.
    apply parseFile_unknown_magic; vm_compute; congruence.
  - assert (D : detect conv (BOM_UTF16BE ++ raw) = None).
    { rewrite detect_utf16be. destruct H as [-> | H]; [reflexivity|].
      rewrite H. now destruct (unitsBE raw). }
    unfold LoadPPM. rewrite D.
    apply parseFile_unknown_magic; vm_compute; congruence.
Qed.

Lemma LoadPPM_utf16_undecodable_witness :
  LoadPPM utf8_of_utf16 (Some (BOM_UTF16LE ++ lit "P"))
  = Return (Some NotP3P6) newImage.
Proof.
  apply (proj1 (LoadPPM_utf16_undecodable utf8_of_utf16 (lit "P"))).
  left. reflexivity.
Defined.

(** ** A byte order mark before a plain document *)

Lemma nextToken_no_space s tok rest :
  nextToken s = Some (tok, rest) -> tok <> [] /\ no_space tok = true.
Proof.
  unfold nextToken. intros H.
  destruct (skipBlanks s) as [s'|]; [|discriminate].
  destruct (readToken_result s') as (_ & Hw & _).
  destruct (readToken s') as [out rest']. cbn [fst] in Hw.
  destruct out; [discriminate|]. inversion H; subst. split; [discriminate | exact Hw].
Qed.

(** A token [std::stoi] converts, and that holds no whitespace, begins with
    a sign or a digit: the normalizer leaves it as it is. *)
Lemma stoi_token_clean t v :
  stoi t = inl v -> no_space t = true -> normalizeToken t = t.
Proof.
  intros Hs Hn. destruct t as [|c t]; [discriminate|].
  cbn in Hn. apply andb_true_iff in Hn. destruct Hn as [Hc _].
  apply negb_true_iff in Hc.
  unfold stoi in Hs. cbn [skipws] in Hs. rewrite Hc in Hs.
  assert (Hcode : code c = 45 \/ code c = 43 \/ 48 <= code c <= 57).
  { destruct (Ascii.eqb_spec c "-") as [-> | _]; [left; reflexivity|].
    destruct (Ascii.eqb_spec c "+") as [-> | _]; [right; left; reflexivity|].
    right. right. destruct (isdigit c) eqn:Ed; [|discriminate].
    unfold isdigit in Ed. apply andb_true_iff in Ed. destruct Ed as [E1 E2].
    apply Z.leb_le in E1. apply Z.leb_le in E2. lia. }
  apply normalizeToken_of_fixed. right. apply normalizeBody_graphic; lia.
Qed.

Lemma normalizeToken_twice s :
  normalizeToken (normalizeToken s) = normalizeToken s.
Proof. apply normalizeToken_of_fixed, normalizeToken_fixed. Qed.

(** With no ['#'] inside the next token, the string tokenizer returns the
    raw tokenizer's token, normalized, and leaves the same bytes unread. *)
Lemma nextTokenStr_of_raw k s raw rest :
  nextToken s = Some (raw, rest) ->
  forallb hash_free (takeTokens nextTokenStr (S k) s) = true ->
  nextTokenStr s = Some (normalizeToken raw, rest) /\
  forallb hash_free (takeTokens nextTokenStr k rest) = true.
Proof.
  intros Hraw Hh. cbn [takeTokens] in Hh.
  pose proof (tokenizers_step (length s) s (le_n _)) as Hs.
  destruct (nextTokenStr s) as [[tok r]|]; [|congruence].
  cbn [forallb] in Hh. apply andb_true_iff in Hh. destruct Hh as [Ht Hh].
  destruct (Hs Ht) as (raw' & E & <-).
  rewrite Hraw in E. inversion E; subst. auto.
Qed.

Lemma pixelsStr_of_pixelsP3 maxVal n : forall i s img img',
  pixelsP3 maxVal n i s img = Return None img' ->
  forallb hash_free (takeTokens nextTokenStr (3 * n) s) = true ->
  pixelsStr maxVal n i s img = Return None img'.
Proof.
  induction n as [|n IH]; intros i s img img' H Hh; [exact H|].
  replace (3 * S n)%nat with (S (S (S (3 * n)))) in Hh by lia.
  cbn [pixelsP3] in H. cbv zeta in H.
  destruct (nextToken s) as [[sr s1]|] eqn:E1; [|discriminate].
  destruct (nextToken s1) as [[sg s2]|] eqn:E2; [|discriminate].
  destruct (nextToken s2) as [[sb s3]|] eqn:E3; [|discriminate].
  destruct (stoi sr) as [r|] eqn:Er; [|discriminate].
  destruct (stoi sg) as [g|] eqn:Eg; [|discriminate].
  destruct (stoi sb) as [b|] eqn:Eb; [|discriminate].
  destruct (nextTokenStr_of_raw _ _ _ _ E1 Hh) as [S1 Hh1].
  destruct (nextTokenStr_of_raw _ _ _ _ E2 Hh1) as [S2 Hh2].
  destruct (nextTokenStr_of_raw _ _ _ _ E3 Hh2) as [S3 Hh3].
  cbn [pixelsStr]. rewrite S1, S2, S3. cbv zeta.
  rewrite !normalizeToken_twice.
  rewrite (stoi_token_clean _ _ Er (proj2 (nextToken_no_space _ _ _ E1))).
  rewrite (stoi_token_clean _ _ Eg (proj2 (nextToken_no_space _ _ _ E2))).
  rewrite (stoi_token_clean _ _ Eb (proj2 (nextToken_no_space _ _ _ E3))).
  rewrite Er, Eg, Eb. now apply IH.
Qed.

Lemma parseString_of_parseFile text img :
  parseFile text newImage = Return None img ->
  option_map fst (nextTokenStr text) = Some (lit "P3") ->
  forallb hash_free
    (takeTokens nextTokenStr (4 + 3 * length (pixels img)) text) = true ->
  parseString text newImage = Return None img.
Proof.
  unfold parseFile. intros H Hmagic Hh.
  destruct (nextToken text) as [[t0 s0]|] eqn:E0; [|discriminate].
  cbv zeta in H. rewrite normalizeToken_bom_free in H.
  change (4 + 3 * length (pixels img))%nat
    with (S (S (S (S (3 * length (pixels img)))))) in Hh.
  destruct (nextTokenStr_of_raw _ _ _ _ E0 Hh) as [S0 Hh0].
  rewrite S0 in Hmagic. cbn in Hmagic. inversion Hmagic as [Hm].
  rewrite Hm in H.
  replace (bytes_eqb (lit "P3") (lit "P6")) with false in H by reflexivity.
  replace (bytes_eqb (lit "P3") (lit "P3")) with true in H by reflexivity.
  cbn [negb] in H. unfold parseP3 in H.
  destruct (nextToken s0) as [[t1 s1]|] eqn:E1; [|discriminate].
  destruct (nextToken s1) as [[t2 s2]|] eqn:E2; [|discriminate].
  destruct (nextToken s2) as [[t3 s3]|] eqn:E3; [|discriminate].
  destruct (nextTokenStr_of_raw _ _ _ _ E1 Hh0) as [S1 Hh1].
  destruct (nextTokenStr_of_raw _ _ _ _ E2 Hh1) as [S2 Hh2].
  destruct (nextTokenStr_of_raw _ _ _ _ E3 Hh2) as [S3 Hh3].
  unfold parseString. rewrite S0. cbv zeta. rewrite normalizeToken_twice, Hm.
  replace (bytes_eqb (lit "P3") (lit "P3")) with true by reflexivity.
  cbn [negb]. rewrite S1, S2, S3, !normalizeToken_twice.
  cbv zeta in H.
  destruct (stoi (normalizeToken t1)) as [w|] eqn:Ew; [|discriminate].
  destruct (stoi (normalizeToken t2)) as [h|] eqn:Eh; [|discriminate].
  destruct (stoi (normalizeToken t3)) as [maxVal|] eqn:Em; [|discriminate].
  cbn [width height pixels newImage] in *.
  destruct ((w <=? 0) || (h <=? 0)) eqn:Ed; [discriminate|].
  destruct (((to_uint64 w * to_uint64 h) mod 2 ^ 64 =? 0)
            || (100000000 <? (to_uint64 w * to_uint64 h) mod 2 ^ 64));
    [discriminate|].
  apply pixelsStr_of_pixelsP3; [exact H|].
  apply pixelsP3_done in H as Hdone;
    [|cbn; unfold resize; rewrite repeat_length; lia].
  destruct Hdone as (_ & _ & Hl & _). cbn [pixels] in Hl.
  unfold resize in Hl. rewrite repeat_length in Hl. rewrite <- Hl. exact Hh3.
Qed.

(** X15. A plain P3 document (no byte order mark, no NUL byte) that loads
    gives the same image when a UTF-8 byte order mark is put in front of it,
    provided none of the tokens the string parser reads has a ['#'] inside
    it. *)
Theorem LoadPPM_utf8_bom_same_image conv (text : bytes) (img : Image) :
  detect conv text = None -> ~ In NUL text ->
  LoadPPM conv (Some text) = Return None img ->
  option_map fst (nextTokenStr text) = Some (lit "P3") ->
  forallb hash_free
    (takeTokens nextTokenStr (4 + 3 * length (pixels img)) text) = true ->
  LoadPPM conv (Some (BOM_UTF8 ++ text)) = Return None img.
Proof.
  intros Hd Hnul H Hmagic Hh. unfold LoadPPM in *. rewrite Hd in H.
  assert (Hb : ~ In NUL (BOM_UTF8 ++ text)).
  { intros Hin. apply in_app_or in Hin. destruct Hin as [Hin | Hin]; [|auto].
    simpl in Hin. repeat destruct Hin as [Hin | Hin]; try discriminate; auto. }
  rewrite detect_utf8_bom, (getline_no_delim _ _ Hb). cbn [fst BOM_UTF8 app skipn].
  now apply parseString_of_parseFile.
Qed.

Lemma LoadPPM_utf8_bom_same_image_witness :
  LoadPPM utf8_of_utf16 (Some (BOM_UTF8 ++ doc_comments))
  = Return None (mkImage 1 1 [Pixel.mk 3 2 1 0]).
Proof.
  apply (LoadPPM_utf8_bom_same_image utf8_of_utf16 doc_comments).
  - vm_compute. reflexivity.
  - simpl. intros H. repeat destruct H as [H | H]; try discriminate; auto.
  - vm_compute. reflexivity.
  - vm_compute. reflexivity.
  - vm_compute. reflexivity.
Defined.

(** ** The checks of the header *)

Lemma takeTokens_four next s t0 t1 t2 t3 :
  takeTokens next 4 s = [t0; t1; t2; t3] ->
  exists s0 s1 s2 s3,
    next s = Some (t0, s0) /\ next s0 = Some (t1, s1) /\
    next s1 = Some (t2, s2) /\ next s2 = Some (t3, s3).
Proof.
  cbn [takeTokens]. intros H.
  destruct (next s) as [[u0 s0]|] eqn:E0; [|discriminate].
  destruct (next s0) as [[u1 s1]|] eqn:E1; [|discriminate].
  destruct (next s1) as [[u2 s2]|] eqn:E2; [|discriminate].
  destruct (next s2) as [[u3 s3]|] eqn:E3; [|discriminate].
  inversion H; subst. exists s0, s1, s2, s3. auto.
Qed.

Lemma dims_check w h :
  (w <=? 0) || (h <=? 0) = false -> 0 < w /\ 0 < h.
Proof.
  intros E. apply orb_false_iff in E. destruct E as [E1 E2].
  apply Z.leb_gt in E1. apply Z.leb_gt in E2. auto.
Qed.

Ltac loop_accepted :=
  unfold header_accepted;
  match goal with
  | |- match diagOf (pixelsStr ?m ?n ?i ?s ?g) with _ => _ end =>
      destruct (pixelsStr_diag m n i s g) as [E | E]; rewrite E; simpl; auto
  | |- match diagOf (pixelsP6 ?m ?n ?i ?s ?g) with _ => _ end =>
      destruct (pixelsP6_diag m n i s g) as [E | E]; rewrite E; simpl; auto
  | |- match diagOf (pixelsP3 ?m ?n ?i ?s ?g) with _ => _ end =>
      destruct (pixelsP3_diag m n i s g) as [E | [E | E]];
      rewrite E; simpl; auto
  end.

(** X19. On every path, a header whose magic is accepted and whose three
    numbers convert is checked in this order: a width or height of 0 or
    less gives "invalid dimensions"; otherwise more than 100,000,000 pixels
    give "too large"; otherwise the header is accepted, and the load can
    only end loaded, with an exception, or with a message about the pixel
    data. *)
Theorem LoadPPM_header_checks conv (file : bytes) (w h maxVal : Z) :
  declaredHeader conv file = Some (w, h, maxVal) ->
  if (w <=? 0) || (h <=? 0)
  then diagOf (LoadPPM conv (Some file)) = Some InvalidDimensions
  else if 100000000 <? w * h
  then diagOf (LoadPPM conv (Some file)) = Some TooLargeOrInvalid
  else header_accepted (LoadPPM conv (Some file)).
Proof.
  unfold declaredHeader, LoadPPM. cbv zeta.
  destruct (detect conv file) as [text|].
  - destruct (takeTokens nextTokenStr 4 text)
      as [|t0 [|t1 [|t2 [|t3 [|]]]]] eqn:Et; try discriminate.
    destruct (takeTokens_four _ _ _ _ _ _ Et)
      as (s0 & s1 & s2 & s3 & E0 & E1 & E2 & E3).
    destruct (bytes_eqb (normalizeToken t0) (lit "P3")) eqn:Em; [|discriminate].
    destruct (stoi (normalizeToken t1)) as [w'|] eqn:Ew; [|discriminate].
    destruct (stoi (normalizeToken t2)) as [h'|] eqn:Eh; [|discriminate].
    destruct (stoi (normalizeToken t3)) as [m'|] eqn:Emv; [|discriminate].
    intros [= <- <- <-].
    unfold parseString. rewrite E0. cbv zeta. rewrite Em. cbn [negb].
    rewrite E1, E2, E3, Ew, Eh, Emv. cbn [width height pixels newImage].
    destruct ((w' <=? 0) || (h' <=? 0)) eqn:Ed; [reflexivity|].
    destruct (pixelCount_exact w' h' (stoi_range _ _ Ew) (stoi_range _ _ Eh) Ed)
      as (-> & Hw & Hh).
    replace (w' * h' =? 0) with false by (symmetry; apply Z.eqb_neq; nia).
    cbn [orb]. destruct (100000000 <? w' * h'); [reflexivity|].
    loop_accepted.
  - destruct (takeTokens nextToken 4 file)
      as [|t0 [|t1 [|t2 [|t3 [|]]]]] eqn:Et; try discriminate.
    destruct (takeTokens_four _ _ _ _ _ _ Et)
      as (s0 & s1 & s2 & s3 & E0 & E1 & E2 & E3).
    destruct (bytes_eqb (normalizeToken t0) (lit "P3")
              || bytes_eqb (normalizeToken t0) (lit "P6")) eqn:Em;
      [|discriminate].
    destruct (stoi (normalizeToken t1)) as [w'|] eqn:Ew; [|discriminate].
    destruct (stoi (normalizeToken t2)) as [h'|] eqn:Eh; [|discriminate].
    destruct (stoi (normalizeToken t3)) as [m'|] eqn:Emv; [|discriminate].
    intros [= <- <- <-].
    unfold parseFile. rewrite E0. cbv zeta. rewrite normalizeToken_bom_free.
    destruct (bytes_eqb (normalizeToken t0) (lit "P6")) eqn:E6.
    + unfold parseP6. rewrite E1, E2, E3. cbv zeta. rewrite Ew, Eh, Emv.
      cbn [width height pixels newImage].
      destruct ((w' <=? 0) || (h' <=? 0)) eqn:Ed; [reflexivity|].
      destruct (pixelCount_exact w' h' (stoi_range _ _ Ew) (stoi_range _ _ Eh) Ed)
        as (-> & Hw & Hh).
      replace (w' * h' =? 0) with false by (symmetry; apply Z.eqb_neq; nia).
      cbn [orb]. destruct (100000000 <? w' * h'); [reflexivity|].
      destruct s3 as [|sep body];
        [unfold header_accepted; simpl; auto|].
      loop_accepted.
    + rewrite orb_false_r in Em. rewrite Em. cbn [negb].
      unfold parseP3. rewrite E1, E2, E3. cbv zeta. rewrite Ew, Eh, Emv.
      cbn [width height pixels newImage].
      destruct ((w' <=? 0) || (h' <=? 0)) eqn:Ed; [reflexivity|].
      destruct (pixelCount_exact w' h' (stoi_range _ _ Ew) (stoi_range _ _ Eh) Ed)
        as (-> & Hw & Hh).
      replace (w' * h' =? 0) with false by (symmetry; apply Z.eqb_neq; nia).
      cbn [orb]. destruct (100000000 <? w' * h'); [reflexivity|].
      loop_accepted.
Qed.

Lemma LoadPPM_header_checks_witness :
  diagOf (LoadPPM utf8_of_utf16 (Some (BOM_UTF8 ++ lit "P3 20000 20000 255 1")))
  = Some TooLargeOrInvalid /\
  diagOf (LoadPPM utf8_of_utf16 (Some (lit "P6 0 7 255 ")))
  = Some InvalidDimensions.
Proof.
  split.
  - apply (LoadPPM_header_checks utf8_of_utf16
             (BOM_UTF8 ++ lit "P3 20000 20000 255 1") 20000 20000 255).
    vm_compute. reflexivity.
  - apply (LoadPPM_header_checks utf8_of_utf16 (lit "P6 0 7 255 ") 0 7 255).
    vm_compute. reflexivity.
Defined.
